(** * RestockLambda: the restock listener (restock_listener/app.py)

    A shallow embedding of the Lambda handler that reads a user's recent
    tweets, keeps the ones containing every search term and every special
    code point, and publishes them to an SNS topic.

    Python values are embedded as follows.
    - A [str] is the list of its code points ([ord] of each character).
    - A JSON value of the event payload is a [pyval] (floats are left out).
    - A [dict] with string keys is a [gmap]; a [set] of integers is a [gset].
    - An exception is a value of [exn]; a call that can raise returns a
      [result].
    - The collaborators (tweepy, os.environ, boto3) are the fields of a
      [world]; every call to one of them is appended to a log, so that the
      order and the absence of outbound calls can be stated. *)

From stdpp Require Import gmap list strings.
From Stdlib Require Import ZArith.

Open Scope Z_scope.

(** ** Strings *)

Abbreviation str := (list Z).

(** [ord(character)]: a character is represented by its code point. *)
Definition ord (character : Z) : Z := character.

(** A literal of the source, written with ASCII characters only. *)
Definition u (s : string) : str :=
  (λ a, Z.of_N (Ascii.N_of_ascii a)) <$> String.list_ascii_of_string s.

(** [s.startswith(prefix)] *)
Fixpoint startswith (s prefix : str) : bool :=
  match prefix, s with
  | [], _ => true
  | _ :: _, [] => false
  | p :: prefix', c :: s' => (p =? c) && startswith s' prefix'
  end.

(** [needle in haystack] on two [str]: some position of [haystack] starts
    with [needle]. *)
Fixpoint str_in (needle haystack : str) : bool :=
  startswith haystack needle ||
  match haystack with
  | [] => false
  | _ :: haystack' => str_in needle haystack'
  end.

(** The items after the first one, each preceded by the separator. *)
Fixpoint join_rest (sep : str) (items : list str) : str :=
  match items with
  | [] => []
  | item :: items' => sep ++ item ++ join_rest sep items'
  end.

(** [sep.join(items)] *)
Definition str_join (sep : str) (items : list str) : str :=
  match items with
  | [] => []
  | item :: items' => item ++ join_rest sep items'
  end.

(** The separator of line 112, the literal of two newline characters. *)
Definition blank_line : str := [10; 10].

(** ** Values, exceptions, results *)

#[local] Set Warnings "-register-all".
Inductive pyval : Type :=
| VNone
| VBool (b : bool)
| VInt (z : Z)
| VStr (s : str)
| VList (l : list pyval)
| VDict (d : list (str * pyval)).

Inductive exn : Type :=
| ValueError (msg : str)
| AssertionError
| AttributeError
| TypeError
| KeyError (key : str)
| External (payload : str).

Inductive result (A : Type) : Type :=
| Ok (a : A)
| Err (e : exn).
Arguments Ok {A} a.
Arguments Err {A} e.

#[global] Instance result_ret : MRet result := λ A a, Ok a.
#[global] Instance result_bind : MBind result := λ A B f m,
  match m with
  | Ok a => f a
  | Err e => Err e
  end.

(** [type(v) == list] *)
Definition is_list (v : pyval) : bool :=
  match v with
  | VList _ => true
  | _ => false
  end.


(** [event[key]] *)
Definition getitem (event : gmap str pyval) (key : str) : result pyval :=
  match event !! key with
  | Some v => Ok v
  | None => Err (KeyError key)
  end.

(** [for x in v]: the items the loop visits, or the [TypeError] of a value
    that is not iterable. *)
Definition py_iter (v : pyval) : result (list pyval) :=
  match v with
  | VList l => Ok l
  | VStr s => Ok ((λ c, VStr [c]) <$> s)
  | VDict d => Ok ((λ kv, VStr kv.1) <$> d)
  | VNone | VBool _ | VInt _ => Err TypeError
  end.

(** [x in chars] for a set of integers: [True] and [False] hash and compare
    as 1 and 0, a list or a dict is not hashable. *)
Definition in_int_set (x : pyval) (chars : gset Z) : result bool :=
  match x with
  | VInt z => Ok (bool_decide (z ∈ chars))
  | VBool b => Ok (bool_decide (Z.b2z b ∈ chars))
  | VNone | VStr _ => Ok false
  | VList _ | VDict _ => Err TypeError
  end.

(** ** Validation (lines 31-42) *)

Definition required_inputs : list str :=
  [u "subject"; u "consumer_key"; u "consumer_secret"; u "access_token";
   u "access_token_secret"; u "screen_name"; u "search_terms";
   u "special_unicode"].

Definition missing_input_message (required_input : str) : str :=
  u "The provided event payload is missing required input - " ++ required_input.

(** The loop of lines 39-41. *)
Fixpoint check_required (event : gmap str pyval) (inputs : list str) : result unit :=
  match inputs with
  | [] => Ok tt
  | required_input :: inputs' =>
      if bool_decide (event !! required_input = None)
      then Err (ValueError (missing_input_message required_input))
      else check_required event inputs'
  end.

Definition _verify_event_payload (event : gmap str pyval) : result unit :=
  _ ← check_required event required_inputs;
  search_terms ← getitem event (u "search_terms");
  both_lists ←
    (if is_list search_terms
     then special_unicode ← getitem event (u "special_unicode");
          mret (is_list special_unicode)
     else mret false);
  if both_lists : bool then mret tt else Err AssertionError.

(** ** Matching (lines 72-92) *)

Record tweet : Type := { text : str }.

Section Matching.

(** [s.lower()], the case mapping of the Python runtime. *)
Variable lower : str → str.

(** [search_term.lower()]: only a [str] has the method. *)
Definition py_lower (v : pyval) : result str :=
  match v with
  | VStr s => Ok (lower s)
  | _ => Err AttributeError
  end.

(** The loop of lines 80-83; returning [false] is the [break]. *)
Fixpoint search_terms_loop (tweet_text : str) (search_terms : list pyval)
    (matching : bool) : result bool :=
  match search_terms with
  | [] => Ok matching
  | search_term :: search_terms' =>
      term ← py_lower search_term;
      if negb (str_in term (lower tweet_text))
      then Ok false
      else search_terms_loop tweet_text search_terms' matching
  end.

(** The loop of lines 85-88. *)
Fixpoint special_unicode_loop (unicode_chars_in_tweet : gset Z)
    (special_unicode : list pyval) (matching : bool) : result bool :=
  match special_unicode with
  | [] => Ok matching
  | special_unicode_char :: special_unicode' =>
      present ← in_int_set special_unicode_char unicode_chars_in_tweet;
      if negb present
      then Ok false
      else special_unicode_loop unicode_chars_in_tweet special_unicode' matching
  end.

(** The body of the loop over the tweets (lines 75-88): the final value of
    [matching]. *)
Definition tweet_matching (search_terms special_unicode : pyval)
    (tweet_text : str) : result bool :=
  let unicode_chars_in_tweet : gset Z := list_to_set (ord <$> tweet_text) in
  terms ← py_iter search_terms;
  matching ← search_terms_loop tweet_text terms true;
  chars ← py_iter special_unicode;
  special_unicode_loop unicode_chars_in_tweet chars matching.

(** The loop of lines 74-91 with its accumulator [matching_tweets]. *)
Fixpoint user_tweets_loop (search_terms special_unicode : pyval)
    (user_tweets : list tweet) (matching_tweets : list str) : result (list str) :=
  match user_tweets with
  | [] => Ok matching_tweets
  | tweet :: user_tweets' =>
      matching ← tweet_matching search_terms special_unicode (text tweet);
      user_tweets_loop search_terms special_unicode user_tweets'
        (if matching : bool then matching_tweets ++ [text tweet] else matching_tweets)
  end.

End Matching.

(** ** The collaborators and the log of the calls made to them *)

(** An object handed out by a collaborator (a tweepy or boto3 client). *)
Abbreviation client := Z.

Record world : Type := {
  (** lines 55-57: [tweepy.OAuthHandler], [set_access_token], [tweepy.API] *)
  tweepy_API : pyval → pyval → pyval → pyval → result client;
  (** [client.user_timeline(screen_name=...)] *)
  user_timeline : client → pyval → result (list tweet);
  (** [os.environ] *)
  environ : gmap str str;
  (** [boto3.client(service)] *)
  boto3_client : str → result client;
  (** [client.publish(TopicArn=..., Message=..., Subject=...)] *)
  publish : client → str → str → pyval → result (gmap str pyval)
}.

Inductive call : Type :=
| TweepyAPI (consumer_key consumer_secret access_token access_token_secret : pyval)
| UserTimeline (c : client) (screen_name : pyval)
| Environ (key : str)
| Boto3Client (service : str)
| Publish (c : client) (TopicArn Message : str) (Subject : pyval).

Definition is_publish (c : call) : bool :=
  match c with
  | Publish _ _ _ _ => true
  | _ => false
  end.

Definition is_environ (c : call) : bool :=
  match c with
  | Environ _ => true
  | _ => false
  end.

(** The calls that leave the process: the feed and the notification service. *)
Definition is_outbound (c : call) : bool :=
  match c with
  | Environ _ => false
  | _ => true
  end.

(** A computation that may raise and that appends to the log of calls. *)
Definition M (A : Type) : Type := list call → list call * result A.

#[global] Instance M_ret : MRet M := λ A a log, (log, Ok a).
#[global] Instance M_bind : MBind M := λ A B f m log,
  match m log with
  | (log', Ok a) => f a log'
  | (log', Err e) => (log', Err e)
  end.

(** A step that makes no call. *)
Definition lift {A} (r : result A) : M A := λ log, (log, r).

(** A call to a collaborator, with its outcome. *)
Definition calling {A} (c : call) (r : result A) : M A := λ log, (log ++ [c], r).

(** ** The functions of app.py *)

Definition _get_aws_client (w : world) (service : str) (c : option client) : M client :=
  match c with
  | Some c => mret c
  | None => calling (Boto3Client service) (boto3_client w service)
  end.

Definition _get_sns_client (w : world) (c : option client) : M client :=
  _get_aws_client w (u "sns") c.

Definition _send_message (w : world) (message : str) (subject : pyval)
    (topic_arn : str) (c : client) : M (gmap str pyval) :=
  calling (Publish c topic_arn message subject) (publish w c topic_arn message subject).

Definition _get_authorized_tweepy_client (w : world)
    (consumer_key consumer_secret access_token access_token_secret : pyval) : M client :=
  calling (TweepyAPI consumer_key consumer_secret access_token access_token_secret)
    (tweepy_API w consumer_key consumer_secret access_token access_token_secret).

(** [os.environ[key]] *)
Definition os_environ (w : world) (key : str) : M str :=
  calling (Environ key)
    (match environ w !! key with
     | Some v => Ok v
     | None => Err (KeyError key)
     end).

Section Handler.

Variable lower : str → str.

Definition _get_matching_tweets (w : world)
    (screen_name search_terms special_unicode : pyval) (c : client) : M (list str) :=
  user_tweets ← calling (UserTimeline c screen_name) (user_timeline w c screen_name);
  lift (user_tweets_loop lower search_terms special_unicode user_tweets []).

Definition lambda_handler (w : world) (event : gmap str pyval) : M (gmap str pyval) :=
  _ ← lift (_verify_event_payload event);
  consumer_key ← lift (getitem event (u "consumer_key"));
  consumer_secret ← lift (getitem event (u "consumer_secret"));
  access_token ← lift (getitem event (u "access_token"));
  access_token_secret ← lift (getitem event (u "access_token_secret"));
  tweepy_client ← _get_authorized_tweepy_client w
    consumer_key consumer_secret access_token access_token_secret;
  screen_name ← lift (getitem event (u "screen_name"));
  search_terms ← lift (getitem event (u "search_terms"));
  special_unicode ← lift (getitem event (u "special_unicode"));
  matching_tweets ← _get_matching_tweets w
    screen_name search_terms special_unicode tweepy_client;
  let message := str_join blank_line matching_tweets in
  if (0 <? length matching_tweets)%nat
  then
    sns_topic_arn ← os_environ w (u "sns_topic_arn");
    sns_client ← _get_sns_client w None;
    subject ← lift (getitem event (u "subject"));
    _send_message w message subject sns_topic_arn sns_client
  else mret ∅.

End Handler.

(** ** Specification vocabulary *)

(** [term] occurs in [s] as a run of consecutive characters. *)
Definition occurs_in (term s : str) : Prop :=
  ∃ before after : str, s = before ++ term ++ after.

(** The criterion of the match engine on one post: every term occurs in the
    text when both are lower-cased, and every code point is the code point
    of some character of the text. *)
Definition post_matches (lower : str → str) (terms : list str) (codes : list Z)
    (post : tweet) : Prop :=
  (∀ term, term ∈ terms → occurs_in (lower term) (lower (text post))) ∧
  (∀ code, code ∈ codes → code ∈ (ord <$> text post)).

(** The same criterion as a test. *)
Definition post_matchesb (lower : str → str) (terms : list str) (codes : list Z)
    (post : tweet) : bool :=
  forallb (λ term, str_in (lower term) (lower (text post))) terms &&
  forallb (λ code, bool_decide (code ∈ (list_to_set (ord <$> text post) : gset Z))) codes.

(** [selects P posts texts]: [texts] are the texts of the posts that satisfy
    [P], one per such post, in the order of [posts]. *)
Inductive selects (P : tweet → Prop) : list tweet → list str → Prop :=
| selects_nil : selects P [] []
| selects_keep post posts texts :
    P post → selects P posts texts → selects P (post :: posts) (text post :: texts)
| selects_skip post posts texts :
    ¬ P post → selects P posts texts → selects P (post :: posts) texts.

(** Search terms and code points as they arrive in the payload. *)
Definition terms_value (terms : list str) : pyval := VList (VStr <$> terms).
Definition codes_value (codes : list Z) : pyval := VList (VInt <$> codes).

(** The errors [_verify_event_payload] raises. *)
Definition ValidationError (e : exn) : Prop :=
  match e with
  | ValueError _ | AssertionError => True
  | _ => False
  end.

(** The value of a field of a payload that has it. *)
Definition event_field (event : gmap str pyval) (key : str) : pyval :=
  default VNone (event !! key).

(** The items of the two list fields have the types of the data model:
    search terms are strings, special code points are integers. *)
Definition typed_request (event : gmap str pyval) : Prop :=
  (∀ items, event !! u "search_terms" = Some (VList items) →
     ∃ terms, items = VStr <$> terms) ∧
  (∀ items, event !! u "special_unicode" = Some (VList items) →
     ∃ codes, items = VInt <$> codes).

(** The outcomes of an invocation, stage by stage: each names the step that
    decides it and carries that step's own error or acknowledgment. *)
Section Outcome.

Variable lower : str → str.
Variable w : world.
Variable event : gmap str pyval.

Let field := event_field event.

Definition authenticate : result client :=
  tweepy_API w (field (u "consumer_key")) (field (u "consumer_secret"))
    (field (u "access_token")) (field (u "access_token_secret")).

Definition fetch : result (list tweet) :=
  c ← authenticate; user_timeline w c (field (u "screen_name")).

Definition find_matches : result (list str) :=
  posts ← fetch;
  user_tweets_loop lower (field (u "search_terms")) (field (u "special_unicode")) posts [].

Inductive handler_outcome : result (gmap str pyval) → Prop :=
| validation_error e :
    _verify_event_payload event = Err e →
    handler_outcome (Err e)
| authentication_error e :
    _verify_event_payload event = Ok tt →
    authenticate = Err e →
    handler_outcome (Err e)
| fetch_error c e :
    _verify_event_payload event = Ok tt →
    authenticate = Ok c →
    user_timeline w c (field (u "screen_name")) = Err e →
    handler_outcome (Err e)
| no_matches :
    _verify_event_payload event = Ok tt →
    find_matches = Ok [] →
    handler_outcome (Ok ∅)
| configuration_error matches :
    _verify_event_payload event = Ok tt →
    find_matches = Ok matches → matches ≠ [] →
    environ w !! u "sns_topic_arn" = None →
    handler_outcome (Err (KeyError (u "sns_topic_arn")))
| sns_client_error matches topic_arn e :
    _verify_event_payload event = Ok tt →
    find_matches = Ok matches → matches ≠ [] →
    environ w !! u "sns_topic_arn" = Some topic_arn →
    boto3_client w (u "sns") = Err e →
    handler_outcome (Err e)
| publish_error matches topic_arn c e :
    _verify_event_payload event = Ok tt →
    find_matches = Ok matches → matches ≠ [] →
    environ w !! u "sns_topic_arn" = Some topic_arn →
    boto3_client w (u "sns") = Ok c →
    publish w c topic_arn (str_join blank_line matches) (field (u "subject")) = Err e →
    handler_outcome (Err e)
| acknowledged matches topic_arn c ack :
    _verify_event_payload event = Ok tt →
    find_matches = Ok matches → matches ≠ [] →
    environ w !! u "sns_topic_arn" = Some topic_arn →
    boto3_client w (u "sns") = Ok c →
    publish w c topic_arn (str_join blank_line matches) (field (u "subject")) = Ok ack →
    handler_outcome (Ok ack).

End Outcome.

(** ** Sample data *)

(** The case mapping on the ASCII letters, an instance of [lower]. *)
Definition ascii_lower (s : str) : str :=
  (λ c, if (65 <=? c) && (c <=? 90) then c + 32 else c) <$> s.

Definition sample_ack : gmap str pyval := {[ u "MessageId" := VStr (u "m-1") ]}.

(** A world whose feed returns [posts] and whose process has [env]. *)
Definition sample_world (posts : list tweet) (env : gmap str str) : world :=
  {| tweepy_API _ _ _ _ := Ok 1;
     user_timeline _ _ := Ok posts;
     environ := env;
     boto3_client _ := Ok 2;
     publish _ _ _ _ := Ok sample_ack |}.

Definition sample_event (search_terms special_unicode : pyval) : gmap str pyval :=
  list_to_map
    [(u "subject", VStr (u "Restock alert"));
     (u "consumer_key", VStr (u "ck"));
     (u "consumer_secret", VStr (u "cs"));
     (u "access_token", VStr (u "at"));
     (u "access_token_secret", VStr (u "ats"));
     (u "screen_name", VStr (u "shop"));
     (u "search_terms", search_terms);
     (u "special_unicode", special_unicode)].

Definition sample_env : gmap str str :=
  {[ u "sns_topic_arn" := u "arn:aws:sns:us-east-1:1:restock" ]}.

Definition sale_posts : list tweet :=
  [ {| text := u "Big SALE today!" |}; {| text := u "no deal here" |} ].

(** The feed of [sale_posts] in a process without the topic variable. *)
Definition sample_feed : world := sample_world sale_posts ∅.

Definition sale_event : gmap str pyval :=
  sample_event (terms_value [u "sale"]) (codes_value []).

Definition no_match_event : gmap str pyval :=
  sample_event (terms_value [u "restock"]) (codes_value [9989]).

(** The collaborator a call goes to, and the order in which the handler
    reaches them (lines 104, 108, 117, 119, 121). *)
Inductive call_kind : Type :=
| KTweepyAPI
| KUserTimeline
| KEnviron
| KBoto3Client
| KPublish.

Definition kind_of (c : call) : call_kind :=
  match c with
  | TweepyAPI _ _ _ _ => KTweepyAPI
  | UserTimeline _ _ => KUserTimeline
  | Environ _ => KEnviron
  | Boto3Client _ => KBoto3Client
  | Publish _ _ _ _ => KPublish
  end.

Definition handler_call_order : list call_kind :=
  [KTweepyAPI; KUserTimeline; KEnviron; KBoto3Client; KPublish].

(** A payload with a field the handler does not know and with list items of
    other types than the data model's. *)
Definition odd_event : gmap str pyval :=
  <[u "note" := VNone]> (sample_event (VList [VInt 1]) (VList [VStr (u "x")])).

(** The outcome the matching step adds to [handler_outcome]: the payload is
    valid, the tweets were fetched, the loop over them raised [e] and the
    result is that error. *)
Definition matching_error (lower : str → str) (w : world) (event : gmap str pyval)
    (r : result (gmap str pyval)) : Prop :=
  ∃ c posts e,
    _verify_event_payload event = Ok tt ∧
    authenticate w event = Ok c ∧
    user_timeline w c (event_field event (u "screen_name")) = Ok posts ∧
    user_tweets_loop lower (event_field event (u "search_terms"))
      (event_field event (u "special_unicode")) posts [] = Err e ∧
    (e = AttributeError ∨ e = TypeError) ∧
    r = Err e.

(** A payload that passes validation with a search term that is not a
    string. *)
Definition untyped_event : gmap str pyval :=
  sample_event (VList [VInt 1]) (VList []).

(** * Properties *)

(** ** Strings *)

Lemma startswith_spec (s prefix : str) :
  startswith s prefix = true ↔ ∃ after, s = prefix ++ after.
Proof.
  revert s. induction prefix as [|p prefix IH]; intros s.
  - split; [intros _; by exists s | by destruct s].
  - destruct s as [|c s]; simpl.
    + split; [done | intros [after H]; discriminate].
    + rewrite andb_true_iff, Z.eqb_eq, IH. split.
      * intros [-> [after ->]]. by exists after.
      * intros [after H]. injection H as -> ->. eauto.
Qed.

Lemma str_in_spec (needle haystack : str) :
  str_in needle haystack = true ↔ occurs_in needle haystack.
Proof.
  unfold occurs_in. induction haystack as [|c haystack IH].
  - cbn [str_in]. rewrite orb_false_r, startswith_spec. split.
    + intros [after H]. by exists [], after.
    + intros [before [after H]]. destruct before; [by exists after | discriminate].
  - cbn [str_in]. rewrite orb_true_iff, startswith_spec, IH. split.
    + intros [[after H] | (before & after & H)].
      * exists [], after. done.
      * exists (c :: before), after. by rewrite H.
    + intros (before & after & H). destruct before as [|b before].
      * left. by exists after.
      * right. exists before, after. by injection H.
Qed.

Lemma str_in_nil (haystack : str) : str_in [] haystack = true.
Proof. apply str_in_spec. by exists [], haystack. Qed.

Lemma str_in_nil_r (needle : str) : str_in needle [] = true → needle = [].
Proof.
  intros (before & after & H)%str_in_spec.
  symmetry in H. apply app_eq_nil in H as [_ H]. by apply app_eq_nil in H as [H _].
Qed.

Lemma join_rest_app (sep : str) (l1 l2 : list str) :
  join_rest sep (l1 ++ l2) = join_rest sep l1 ++ join_rest sep l2.
Proof.
  induction l1 as [|x l1 IH]; simpl; [done|].
  by rewrite IH, !app_assoc.
Qed.

Lemma length_join_rest (sep : str) (l : list str) :
  length (join_rest sep l) = (sum_list (length <$> l) + length l * length sep)%nat.
Proof.
  induction l as [|x l IH]; csimpl; [lia|].
  rewrite !length_app, IH. lia.
Qed.

(** ** The match engine on typed criteria *)

Section MatchingProperties.

Variable lower : str → str.

Lemma search_terms_loop_typed (tweet_text : str) (terms : list str) (matching : bool) :
  search_terms_loop lower tweet_text (VStr <$> terms) matching =
  Ok (forallb (λ term, str_in (lower term) (lower tweet_text)) terms && matching).
Proof.
  induction terms as [|term terms IH]; [done|].
  cbn. destruct (str_in (lower term) (lower tweet_text)); [apply IH | done].
Qed.

Lemma special_unicode_loop_typed (chars : gset Z) (codes : list Z) (matching : bool) :
  special_unicode_loop chars (VInt <$> codes) matching =
  Ok (forallb (λ code, bool_decide (code ∈ chars)) codes && matching).
Proof.
  induction codes as [|code codes IH]; [done|].
  cbn. destruct (bool_decide (code ∈ chars)); [apply IH | done].
Qed.

Lemma tweet_matching_typed (terms : list str) (codes : list Z) (post : tweet) :
  tweet_matching lower (terms_value terms) (codes_value codes) (text post) =
  Ok (post_matchesb lower terms codes post).
Proof.
  unfold tweet_matching, terms_value, codes_value, post_matchesb. cbn.
  rewrite search_terms_loop_typed. cbn.
  rewrite special_unicode_loop_typed. f_equal.
  rewrite andb_true_r. apply andb_comm.
Qed.

Lemma post_matchesb_spec (terms : list str) (codes : list Z) (post : tweet) :
  post_matchesb lower terms codes post = true ↔ post_matches lower terms codes post.
Proof.
  unfold post_matchesb, post_matches.
  rewrite andb_true_iff, !forallb_forall.
  split; intros [Hterms Hcodes]; split.
  - intros term Hin. by apply str_in_spec, Hterms, list_elem_of_In.
  - intros code Hin. apply list_elem_of_In, Hcodes in Hin.
    by apply bool_decide_eq_true, elem_of_list_to_set in Hin.
  - intros term Hin. by apply str_in_spec, Hterms, list_elem_of_In.
  - intros code Hin. apply bool_decide_eq_true, elem_of_list_to_set.
    by apply Hcodes, list_elem_of_In.
Qed.

#[global] Instance post_matches_dec terms codes post :
  Decision (post_matches lower terms codes post).
Proof.
  refine (cast_if (decide (post_matchesb lower terms codes post = true)));
    by rewrite <- post_matchesb_spec.
Defined.

Lemma user_tweets_loop_typed (terms : list str) (codes : list Z)
    (posts : list tweet) (matching_tweets : list str) :
  user_tweets_loop lower (terms_value terms) (codes_value codes) posts matching_tweets =
  Ok (matching_tweets ++ (text <$> filter (post_matches lower terms codes) posts)).
Proof.
  revert matching_tweets. induction posts as [|post posts IH]; intros acc.
  - cbn. by rewrite app_nil_r.
  - rewrite filter_cons. cbn [user_tweets_loop].
    rewrite tweet_matching_typed. cbn [mbind result_bind]. rewrite IH.
    destruct (post_matchesb lower terms codes post) eqn:Hb.
    + rewrite decide_True by (by apply post_matchesb_spec).
      by rewrite fmap_cons, <- app_assoc.
    + rewrite decide_False; [done|].
      rewrite <- post_matchesb_spec. congruence.
Qed.

Lemma selects_filter (P : tweet → Prop) `{∀ post, Decision (P post)} (posts : list tweet) :
  selects P posts (text <$> filter P posts).
Proof.
  induction posts as [|post posts IH]; [constructor|].
  rewrite filter_cons. case_decide.
  - rewrite fmap_cons. by constructor.
  - by constructor.
Qed.

Lemma selects_functional (P : tweet → Prop) (posts : list tweet) (texts texts' : list str) :
  selects P posts texts → selects P posts texts' → texts = texts'.
Proof.
  intros Hsel. revert texts'.
  induction Hsel as [|post posts texts HP _ IH|post posts texts HP _ IH];
    intros texts' Hsel'; inversion Hsel'; subst; try done.
  - f_equal. by apply IH.
  - by apply IH.
Qed.

Lemma filter_weaken_sublist (P Q : tweet → Prop)
    `{∀ post, Decision (P post)} `{∀ post, Decision (Q post)} (posts : list tweet) :
  (∀ post, P post → Q post) → filter P posts `sublist_of` filter Q posts.
Proof.
  intros HPQ. induction posts as [|post posts IH]; [done|].
  rewrite !filter_cons. destruct (decide (P post)) as [HP|HP].
  - rewrite decide_True by auto. by constructor.
  - case_decide; [by constructor | done].
Qed.

End MatchingProperties.

(** ** The match engine: claims *)

Section MatchEngine.

Variable lower : str → str.

(** The case mapping sends the empty string to itself ... *)
Hypothesis lower_nil : lower [] = [].
(** ... and nothing else to it. *)
Hypothesis lower_not_nil : ∀ s, lower s = [] → s = [].

Lemma get_matching_tweets_run (w : world) (c : client)
    (screen_name search_terms special_unicode : pyval) (log : list call) :
  _get_matching_tweets lower w screen_name search_terms special_unicode c log =
  (log ++ [UserTimeline c screen_name],
   user_tweets ← user_timeline w c screen_name;
   user_tweets_loop lower search_terms special_unicode user_tweets []).
Proof.
  unfold _get_matching_tweets, calling, lift. cbn.
  by destruct (user_timeline w c screen_name).
Qed.

(** C1. When the feed returns [posts], [_get_matching_tweets] called with
    a list of string terms and a list of integer code points makes the one
    feed call and returns exactly the raw texts, in feed order, of the
    posts for which every term occurs in the text (both lower-cased) and
    every code point is among the code points of the text; with no term
    and no code point every post is returned. *)
Theorem get_matching_tweets_correct (w : world) (c : client) (screen_name : pyval)
    (posts : list tweet) (terms : list str) (codes : list Z) (log : list call) :
  user_timeline w c screen_name = Ok posts →
  ∃ texts,
    _get_matching_tweets lower w screen_name (terms_value terms) (codes_value codes) c log
      = (log ++ [UserTimeline c screen_name], Ok texts) ∧
    texts = text <$> filter (post_matches lower terms codes) posts ∧
    selects (post_matches lower terms codes) posts texts ∧
    (∀ texts', selects (post_matches lower terms codes) posts texts' → texts' = texts) ∧
    (∀ post, post_matches lower [] [] post) ∧
    _get_matching_tweets lower w screen_name (terms_value []) (codes_value []) c log
      = (log ++ [UserTimeline c screen_name], Ok (text <$> posts)).
Proof.
  intros Hfeed.
  assert (Hall : ∀ post, post_matches lower [] [] post).
  { intros post. split; intros x Hx; by apply elem_of_nil in Hx. }
  exists (text <$> filter (post_matches lower terms codes) posts).
  rewrite !get_matching_tweets_run, Hfeed. cbn [mbind result_bind].
  rewrite !user_tweets_loop_typed. cbn [app]. repeat split; try done.
  - apply selects_filter.
  - intros texts' Hsel. eapply selects_functional; [exact Hsel|apply selects_filter].
  - apply Hall.
  - apply Hall.
  - do 3 f_equal. clear Hfeed. induction posts as [|post posts IH]; [done|].
    rewrite filter_cons, decide_True by apply Hall. by rewrite IH.
Qed.

(** C8. A post with empty text does not match as soon as some search term
    is not the empty string or some code point is required: [matching]
    ends [False] and the text is not appended. *)
Theorem empty_text_fails_to_match (terms : list str) (codes : list Z) :
  (∃ term, term ∈ terms ∧ term ≠ []) ∨ codes ≠ [] →
  tweet_matching lower (terms_value terms) (codes_value codes) [] = Ok false ∧
  ¬ post_matches lower terms codes {| text := [] |} ∧
  user_tweets_loop lower (terms_value terms) (codes_value codes) [ {| text := [] |} ] []
    = Ok [].
Proof.
  intros Hreq.
  assert (Hnot : ¬ post_matches lower terms codes {| text := [] |}).
  { intros [Hterms Hcodes]. destruct Hreq as [(term & Hin & Hne) | Hne].
    - apply Hne, lower_not_nil, str_in_nil_r, str_in_spec.
      specialize (Hterms term Hin). cbn [text] in Hterms.
      by rewrite lower_nil in Hterms.
    - destruct codes as [|code codes]; [done|].
      specialize (Hcodes code (list_elem_of_here _ _)). by apply elem_of_nil in Hcodes. }
  split_and!; [|done|].
  - change [] with (text {| text := [] |}) at 1.
    rewrite tweet_matching_typed. f_equal.
    apply not_true_is_false. by rewrite post_matchesb_spec.
  - rewrite user_tweets_loop_typed, filter_cons, decide_False by done. done.
Qed.

(** C9. Asking for more terms or more code points never adds a match: the
    result for the larger criteria is a subsequence of the result for the
    smaller ones, which is a subsequence of the texts of the posts. *)
Theorem matching_antitone (posts : list tweet)
    (terms terms' : list str) (codes codes' : list Z) :
  terms ⊆ terms' →
  codes ⊆ codes' →
  ∃ texts texts',
    user_tweets_loop lower (terms_value terms) (codes_value codes) posts [] = Ok texts ∧
    user_tweets_loop lower (terms_value terms') (codes_value codes') posts [] = Ok texts' ∧
    texts' `sublist_of` texts ∧
    texts `sublist_of` text <$> posts.
Proof.
  intros Hterms Hcodes. rewrite !user_tweets_loop_typed.
  eexists _, _. split_and!; try done; cbn.
  - apply fmap_sublist, filter_weaken_sublist.
    intros post [H1 H2]. split; [intros term Hin | intros code Hin]; auto.
  - apply fmap_sublist, sublist_filter.
Qed.

(** C10. The empty string as a search term constrains nothing: it occurs
    in every text, so the terms [[""]] with no code point keep every post,
    as no term at all does, and dropping the empty strings from any list
    of terms leaves the result unchanged. *)
Theorem empty_term_is_no_constraint :
  (∀ tweet_text, str_in (lower []) (lower tweet_text) = true) ∧
  (∀ posts,
     user_tweets_loop lower (terms_value [[]]) (codes_value []) posts []
       = Ok (text <$> posts) ∧
     user_tweets_loop lower (terms_value []) (codes_value []) posts []
       = Ok (text <$> posts)) ∧
  (∀ terms codes posts,
     user_tweets_loop lower (terms_value terms) (codes_value codes) posts [] =
     user_tweets_loop lower (terms_value (filter (.≠ []) terms)) (codes_value codes) posts []).
Proof.
  assert (Hdrop : ∀ terms codes post,
    post_matches lower terms codes post ↔
    post_matches lower (filter (.≠ []) terms) codes post).
  { intros terms codes post. unfold post_matches. split; intros [H1 H2]; split; try done.
    - intros term [Hne Hin]%list_elem_of_filter. auto.
    - intros term Hin. destruct (decide (term = [])) as [->|Hne].
      + rewrite lower_nil. by exists [], (lower (text post)).
      + apply H1, list_elem_of_filter. done. }
  assert (Hall : ∀ posts : list tweet, filter (post_matches lower [] []) posts = posts).
  { induction posts as [|post posts IH]; [done|].
    rewrite filter_cons, decide_True, IH; [done|].
    split; intros x Hx; by apply elem_of_nil in Hx. }
  split_and!.
  - intros tweet_text. rewrite lower_nil. apply str_in_nil.
  - intros posts. rewrite !user_tweets_loop_typed. cbn.
    rewrite (list_filter_iff _ _ posts (Hdrop [[]] [])).
    rewrite filter_cons_False by (intros Hne; by apply Hne).
    by rewrite filter_nil, Hall.
  - intros terms codes posts. rewrite !user_tweets_loop_typed.
    by rewrite (list_filter_iff _ _ posts (Hdrop terms codes)).
Qed.

End MatchEngine.

(** ** The message *)

(** C7. The message of line 112 is the texts joined by two newline
    characters: no text gives the empty string, one text gives itself, a
    list cut in two non-empty parts gives the two joined parts with exactly
    two newlines between them, the separators add two characters per entry
    after the first, and ["a"; "b"] gives "a\n\nb". *)
Theorem join_blank_line :
  str_join blank_line [] = [] ∧
  (∀ x, str_join blank_line [x] = x) ∧
  (∀ x l1 y l2,
     str_join blank_line ((x :: l1) ++ y :: l2) =
     str_join blank_line (x :: l1) ++ [10; 10] ++ str_join blank_line (y :: l2)) ∧
  (∀ l, length (str_join blank_line l) =
        (sum_list (length <$> l) + 2 * (length l - 1))%nat) ∧
  str_join blank_line [u "a"; u "b"] = [97; 10; 10; 98].
Proof.
  split_and!; try done.
  - intros x. cbn. apply app_nil_r.
  - intros x l1 y l2. cbn [str_join app].
    rewrite join_rest_app. cbn [join_rest]. by rewrite <- !app_assoc.
  - intros [|x l]; [done|]. cbn [str_join]. rewrite length_app, length_join_rest.
    csimpl. lia.
Qed.

(** ** Validation *)

Lemma check_required_present (event : gmap str pyval) (inputs : list str) :
  (∀ k, k ∈ inputs → is_Some (event !! k)) → check_required event inputs = Ok tt.
Proof.
  induction inputs as [|k inputs IH]; intros Hall; [done|].
  cbn [check_required]. rewrite bool_decide_eq_false_2.
  - apply IH. intros k' Hin. apply Hall. by right.
  - destruct (Hall k (list_elem_of_here _ _)) as [v Hv]. by rewrite Hv.
Qed.

Lemma check_required_first_missing (event : gmap str pyval) (inputs : list str) :
  (∃ k, k ∈ inputs ∧ event !! k = None) →
  ∃ before first after,
    inputs = before ++ first :: after ∧
    (∀ k, k ∈ before → is_Some (event !! k)) ∧
    event !! first = None ∧
    check_required event inputs = Err (ValueError (missing_input_message first)).
Proof.
  induction inputs as [|k inputs IH]; intros (k' & Hin & Hnone).
  - by apply elem_of_nil in Hin.
  - destruct (event !! k) as [v|] eqn:Hk.
    + apply elem_of_cons in Hin as [->|Hin]; [congruence|].
      destruct IH as (before & first & after & -> & Hbefore & Hfirst & Hrun); [by eauto|].
      exists (k :: before), first, after. split_and!; try done.
      * intros k0 [->|Hin0]%elem_of_cons; [by rewrite Hk | by apply Hbefore].
      * cbn [check_required]. by rewrite bool_decide_eq_false_2 by (by rewrite Hk).
    + exists [], k, inputs. split_and!; try done.
      * intros k0 Hin0. by apply elem_of_nil in Hin0.
      * cbn [check_required]. by rewrite bool_decide_eq_true_2.
Qed.

Lemma lambda_handler_invalid (lower : str → str) (w : world)
    (event : gmap str pyval) (log : list call) (e : exn) :
  _verify_event_payload event = Err e →
  lambda_handler lower w event log = (log, Err e).
Proof. intros Hverify. unfold lambda_handler, lift, mbind, M_bind. by rewrite Hverify. Qed.

(** C2. When one of the inputs subject, consumer_key, consumer_secret,
    access_token, access_token_secret, screen_name, search_terms,
    special_unicode is missing from the payload, validation raises the
    [ValueError] whose message is "The provided event payload is missing
    required input - " followed by the name of the first missing one in
    that order, and the handler raises the same error without having called
    any collaborator. *)
Theorem verify_names_first_missing (event : gmap str pyval) :
  (∃ k, k ∈ [u "subject"; u "consumer_key"; u "consumer_secret"; u "access_token";
   u "access_token_secret"; u "screen_name"; u "search_terms"; u "special_unicode"] ∧ event !! k = None) →
  ∃ before first after,
    [u "subject"; u "consumer_key"; u "consumer_secret"; u "access_token";
   u "access_token_secret"; u "screen_name"; u "search_terms"; u "special_unicode"] = before ++ first :: after ∧
    (∀ k, k ∈ before → is_Some (event !! k)) ∧
    event !! first = None ∧
    _verify_event_payload event
      = Err (ValueError (u "The provided event payload is missing required input - " ++ first)) ∧
    ValidationError (ValueError (u "The provided event payload is missing required input - " ++ first)) ∧
    ∀ lower w log,
      lambda_handler lower w event log
        = (log, Err (ValueError (u "The provided event payload is missing required input - " ++ first))).
Proof.
  change [u "subject"; u "consumer_key"; u "consumer_secret"; u "access_token";
   u "access_token_secret"; u "screen_name"; u "search_terms"; u "special_unicode"] with required_inputs.
  intros Hmissing.
  destruct (check_required_first_missing event required_inputs Hmissing)
    as (before & first & after & Hsplit & Hbefore & Hfirst & Hrun).
  change (u "The provided event payload is missing required input - " ++ first)
    with (missing_input_message first) in *.
  assert (Hverify :
    _verify_event_payload event = Err (ValueError (missing_input_message first))).
  { unfold _verify_event_payload. by rewrite Hrun. }
  exists before, first, after.
  change (u "The provided event payload is missing required input - " ++ first)
    with (missing_input_message first).
  split_and!; try done.
  intros lower w log. by apply lambda_handler_invalid.
Qed.


(** ** The handler, path by path *)

Lemma check_required_ok (event : gmap str pyval) (inputs : list str) :
  check_required event inputs = Ok tt → ∀ k, k ∈ inputs → is_Some (event !! k).
Proof.
  induction inputs as [|k inputs IH]; intros Hrun k' Hin.
  - by apply elem_of_nil in Hin.
  - cbn [check_required] in Hrun. case_bool_decide as Hk; [done|].
    apply elem_of_cons in Hin as [->|Hin]; [|by apply IH].
    by apply not_eq_None_Some.
Qed.

Lemma verify_ok_present (event : gmap str pyval) :
  _verify_event_payload event = Ok tt →
  ∀ k, k ∈ required_inputs → is_Some (event !! k).
Proof.
  unfold _verify_event_payload. intros Hverify.
  destruct (check_required event required_inputs) as [[]|e] eqn:Hrun; [|done].
  by apply check_required_ok.
Qed.

Lemma verify_ok_getitem (event : gmap str pyval) (k : str) :
  _verify_event_payload event = Ok tt →
  k ∈ required_inputs →
  getitem event k = Ok (event_field event k).
Proof.
  intros Hverify Hin. destruct (verify_ok_present event Hverify k Hin) as [v Hv].
  unfold getitem, event_field. by rewrite Hv.
Qed.

Lemma verify_ok_lists (event : gmap str pyval) :
  _verify_event_payload event = Ok tt →
  ∃ terms codes,
    event !! u "search_terms" = Some (VList terms) ∧
    event !! u "special_unicode" = Some (VList codes).
Proof.
  intros Hverify. pose proof (verify_ok_present event Hverify) as Hpresent.
  unfold _verify_event_payload in Hverify.
  rewrite check_required_present in Hverify by done.
  destruct (Hpresent (u "search_terms")) as [search_terms Hst].
  { unfold required_inputs. rewrite !elem_of_cons. tauto. }
  destruct (Hpresent (u "special_unicode")) as [special_unicode Hsu].
  { unfold required_inputs. rewrite !elem_of_cons. tauto. }
  unfold getitem in Hverify. rewrite Hst, Hsu in Hverify. cbn in Hverify.
  destruct search_terms, special_unicode; try done. eauto.
Qed.

Section HandlerPaths.

Variable lower : str → str.
Variable w : world.
Variable event : gmap str pyval.
Variable log : list call.

Hypothesis valid : _verify_event_payload event = Ok tt.

Let field := event_field event.
Let auth_call : call :=
  TweepyAPI (field (u "consumer_key")) (field (u "consumer_secret"))
    (field (u "access_token")) (field (u "access_token_secret")).
Let topic_call : call := Environ (u "sns_topic_arn").
Let sns_call : call := Boto3Client (u "sns").

Local Ltac run_handler :=
  unfold auth_call, topic_call, sns_call, field in *;
  unfold lambda_handler;
  rewrite ?(verify_ok_getitem event _ valid)
    by (unfold required_inputs; rewrite !elem_of_cons; tauto);
  rewrite valid;
  unfold _get_authorized_tweepy_client, os_environ, _get_sns_client,
    _get_aws_client, _send_message, calling, lift, mbind, M_bind.

Lemma handler_authentication_fails (e : exn) :
  authenticate w event = Err e →
  lambda_handler lower w event log = (log ++ [auth_call], Err e).
Proof. unfold authenticate. intros Hauth. run_handler. by rewrite Hauth. Qed.

Lemma handler_fetch_fails (c : client) (e : exn) :
  authenticate w event = Ok c →
  user_timeline w c (field (u "screen_name")) = Err e →
  lambda_handler lower w event log
    = (log ++ [auth_call; UserTimeline c (field (u "screen_name"))], Err e).
Proof.
  unfold authenticate. intros Hauth Hfeed. run_handler.
  rewrite Hauth, get_matching_tweets_run, Hfeed. cbn.
  by rewrite <- app_assoc.
Qed.

Lemma find_matches_inv (r : result (list str)) :
  find_matches lower w event = r →
  (∃ e, authenticate w event = Err e ∧ r = Err e) ∨
  (∃ c e, authenticate w event = Ok c ∧
     user_timeline w c (field (u "screen_name")) = Err e ∧ r = Err e) ∨
  (∃ c posts, authenticate w event = Ok c ∧
     user_timeline w c (field (u "screen_name")) = Ok posts ∧
     user_tweets_loop lower (field (u "search_terms")) (field (u "special_unicode"))
       posts [] = r).
Proof.
  unfold find_matches, fetch. intros <-.
  destruct (authenticate w event) as [c|e]; cbn; [|by eauto].
  destruct (user_timeline w c _) as [posts|e] eqn:Hfeed; cbn; [|by eauto 10].
  right. right. by exists c, posts.
Qed.

Lemma handler_matching_fails (e : exn) :
  find_matches lower w event = Err e →
  ∃ calls, lambda_handler lower w event log = (log ++ calls, Err e) ∧
           Forall (λ c, is_publish c = false ∧ is_environ c = false) calls.
Proof.
  intros [(e' & Hauth & [= <-]) | [(c & e' & Hauth & Hfeed & [= <-])
    | (c & posts & Hauth & Hfeed & Hloop)]]%find_matches_inv.
  - rewrite (handler_authentication_fails _ Hauth). eexists. split; [done|].
    by repeat constructor.
  - rewrite (handler_fetch_fails _ _ Hauth Hfeed). eexists. split; [done|].
    by repeat constructor.
  - exists [auth_call; UserTimeline c (field (u "screen_name"))].
    split; [|by repeat constructor].
    unfold authenticate in Hauth. run_handler.
    rewrite Hauth, get_matching_tweets_run, Hfeed. cbn [mbind result_bind].
    rewrite Hloop. by rewrite <- app_assoc.
Qed.

Lemma handler_matches (matches : list str) :
  find_matches lower w event = Ok matches →
  ∃ c,
    authenticate w event = Ok c ∧
    let fetched := log ++ [auth_call; UserTimeline c (field (u "screen_name"))] in
    lambda_handler lower w event log =
    match matches with
    | [] => (fetched, Ok ∅)
    | _ :: _ =>
        match environ w !! u "sns_topic_arn" with
        | None => (fetched ++ [topic_call], Err (KeyError (u "sns_topic_arn")))
        | Some topic_arn =>
            match boto3_client w (u "sns") with
            | Err e => (fetched ++ [topic_call; sns_call], Err e)
            | Ok sns_client =>
                let message := str_join blank_line matches in
                let subject := field (u "subject") in
                (fetched ++ [topic_call; sns_call;
                             Publish sns_client topic_arn message subject],
                 publish w sns_client topic_arn message subject)
            end
        end
    end.
Proof.
  intros [(e' & _ & [=]) | [(c & e' & _ & _ & [=])
    | (c & posts & Hauth & Hfeed & Hloop)]]%find_matches_inv.
  exists c. split; [done|]. cbn zeta.
  unfold authenticate in Hauth. run_handler.
  rewrite Hauth, get_matching_tweets_run, Hfeed. cbn [mbind result_bind].
  rewrite Hloop. rewrite <- !app_assoc. cbn [app].
  destruct matches as [|first rest]; [done|]. cbn [length Nat.ltb Nat.leb].
  destruct (environ w !! u "sns_topic_arn") as [topic_arn|];
    [|by rewrite <- !app_assoc].
  destruct (boto3_client w (u "sns")) as [sns_client|e];
    by rewrite <- !app_assoc.
Qed.

End HandlerPaths.

(** ** The handler: claims *)

(** C4. For a valid payload whose posts give no match, the handler only
    builds the feed client and reads the timeline: it makes no publish
    call, does not read the topic from the environment, and returns the
    empty dict. *)
Theorem no_match_returns_empty (lower : str → str) (w : world)
    (event : gmap str pyval) (log : list call) :
  _verify_event_payload event = Ok tt →
  find_matches lower w event = Ok [] →
  ∃ calls,
    lambda_handler lower w event log = (log ++ calls, Ok ∅) ∧
    Forall (λ c, is_publish c = false ∧ is_environ c = false) calls.
Proof.
  intros Hvalid Hnone.
  destruct (handler_matches lower w event log Hvalid [] Hnone) as (c & _ & Hrun).
  cbn zeta in Hrun. rewrite Hrun. eexists. split; [done|]. by repeat constructor.
Qed.

(** C5. For a valid payload whose posts were fetched and matched, with no
    [sns_topic_arn] in the environment: the handler raises the [KeyError] of
    the lookup exactly when there is a match, returns the empty dict exactly
    when there is none, and reads the environment exactly when there is a
    match; it never publishes. *)
Theorem missing_topic_fails_iff_matches (lower : str → str) (w : world)
    (event : gmap str pyval) (log : list call) (matches : list str) :
  _verify_event_payload event = Ok tt →
  find_matches lower w event = Ok matches →
  environ w !! u "sns_topic_arn" = None →
  ∃ calls,
    (lambda_handler lower w event log).1 = log ++ calls ∧
    ((lambda_handler lower w event log).2 = Err (KeyError (u "sns_topic_arn"))
       ↔ matches ≠ []) ∧
    ((lambda_handler lower w event log).2 = Ok ∅ ↔ matches = []) ∧
    (Exists (λ c, is_environ c = true) calls ↔ matches ≠ []) ∧
    Forall (λ c, is_publish c = false) calls.
Proof.
  intros Hvalid Hmatches Htopic.
  destruct (handler_matches lower w event log Hvalid matches Hmatches) as (c & _ & Hrun).
  cbn zeta in Hrun. rewrite Hrun, Htopic. clear Hrun.
  destruct matches as [|first rest]; cbn [fst snd].
  - eexists. split; [done|]. split_and!; try done.
    + split; [|done]. intros Hex. exfalso.
      apply Exists_cons in Hex as [?|Hex]; [done|].
      apply Exists_cons in Hex as [?|Hex]; [done|]. by apply Exists_nil in Hex.
    + by repeat constructor.
  - rewrite <- app_assoc. eexists. split; [done|]. split_and!; try done.
    + split; [done|]. intros _. cbn. do 2 right. by left.
    + by repeat constructor.
Qed.

(** For a payload whose list items have the types of the data model
    (strings, integers) the matching loop raises nothing, and the handler's
    result is one of the outcomes of [handler_outcome]. *)
Theorem handler_propagates (lower : str → str) (w : world)
    (event : gmap str pyval) (log : list call) :
  typed_request event →
  handler_outcome lower w event (lambda_handler lower w event log).2.
Proof.
  intros [Hterms Hcodes].
  destruct (_verify_event_payload event) as [[]|e] eqn:Hvalid.
  2: { rewrite (lambda_handler_invalid _ _ _ _ _ Hvalid). by constructor. }
  destruct (find_matches lower w event) as [matches|e] eqn:Hmatches.
  - destruct (handler_matches lower w event log Hvalid matches Hmatches)
      as (c & _ & Hrun).
    cbn zeta in Hrun. rewrite Hrun. clear Hrun.
    destruct matches as [|first rest]; [by apply no_matches|].
    destruct (environ w !! u "sns_topic_arn") as [topic_arn|] eqn:Htopic.
    2: { by eapply configuration_error. }
    destruct (boto3_client w (u "sns")) as [sns_client|e] eqn:Hsns.
    2: { by eapply sns_client_error. }
    cbn [snd].
    destruct (publish w sns_client topic_arn _ _) as [ack|e] eqn:Hpublish.
    + by eapply acknowledged.
    + by eapply publish_error.
  - pose proof Hmatches as [(e' & Hauth & [= <-]) | [(c & e' & Hauth & Hfeed & [= <-])
      | (c & posts & Hauth & Hfeed & Hloop)]]%find_matches_inv.
    + rewrite (handler_authentication_fails _ _ _ _ Hvalid _ Hauth).
      by apply authentication_error.
    + rewrite (handler_fetch_fails _ _ _ _ Hvalid _ _ Hauth Hfeed).
      by eapply fetch_error.
    + exfalso. destruct (verify_ok_lists event Hvalid) as (terms & codes & Hst & Hsu).
      destruct (Hterms _ Hst) as [ts ->]. destruct (Hcodes _ Hsu) as [cs ->].
      unfold event_field in Hloop. rewrite Hst, Hsu in Hloop.
      cbn [default from_option id] in Hloop.
      pose proof (user_tweets_loop_typed lower ts cs posts []) as Htyped.
      unfold terms_value, codes_value in Htyped. congruence.
Qed.

(** ** The claims at concrete inputs *)

Lemma ascii_lower_not_nil (s : str) : ascii_lower s = [] → s = [].
Proof. apply fmap_nil_inv. Qed.

Lemma sample_event_present (search_terms special_unicode : pyval) (k : str) :
  k ∈ required_inputs → is_Some (sample_event search_terms special_unicode !! k).
Proof.
  unfold required_inputs. rewrite !elem_of_cons, elem_of_nil.
  intros H. destruct_or!; subst; try done; by eexists.
Qed.

Lemma get_matching_tweets_correct_witness :
  user_timeline sample_feed 1 (VStr (u "shop")) = Ok sale_posts ∧
  ∃ texts,
    _get_matching_tweets ascii_lower sample_feed (VStr (u "shop"))
      (terms_value [u "sale"]) (codes_value []) 1 []
      = ([] ++ [UserTimeline 1 (VStr (u "shop"))], Ok texts) ∧
    texts = text <$> filter (post_matches ascii_lower [u "sale"] []) sale_posts ∧
    selects (post_matches ascii_lower [u "sale"] []) sale_posts texts ∧
    (∀ texts', selects (post_matches ascii_lower [u "sale"] []) sale_posts texts' →
       texts' = texts) ∧
    (∀ post, post_matches ascii_lower [] [] post) ∧
    _get_matching_tweets ascii_lower sample_feed (VStr (u "shop"))
      (terms_value []) (codes_value []) 1 []
      = ([] ++ [UserTimeline 1 (VStr (u "shop"))], Ok (text <$> sale_posts)).
Proof.
  split; [reflexivity|].
  apply (get_matching_tweets_correct ascii_lower sample_feed 1 (VStr (u "shop"))
           sale_posts [u "sale"] [] []).
  reflexivity.
Defined.

Lemma verify_names_first_missing_witness :
  (∃ k, k ∈ [u "subject"; u "consumer_key"; u "consumer_secret"; u "access_token";
   u "access_token_secret"; u "screen_name"; u "search_terms"; u "special_unicode"] ∧ delete (u "access_token") sale_event !! k = None) ∧
  ∃ before first after,
    [u "subject"; u "consumer_key"; u "consumer_secret"; u "access_token";
   u "access_token_secret"; u "screen_name"; u "search_terms"; u "special_unicode"] = before ++ first :: after ∧
    (∀ k, k ∈ before → is_Some (delete (u "access_token") sale_event !! k)) ∧
    delete (u "access_token") sale_event !! first = None ∧
    _verify_event_payload (delete (u "access_token") sale_event)
      = Err (ValueError (u "The provided event payload is missing required input - " ++ first)) ∧
    ValidationError (ValueError (u "The provided event payload is missing required input - " ++ first)) ∧
    ∀ lower w log,
      lambda_handler lower w (delete (u "access_token") sale_event) log
        = (log, Err (ValueError (u "The provided event payload is missing required input - " ++ first))).
Proof.
  assert (Hmissing :
    ∃ k, k ∈ [u "subject"; u "consumer_key"; u "consumer_secret"; u "access_token";
   u "access_token_secret"; u "screen_name"; u "search_terms"; u "special_unicode"] ∧ delete (u "access_token") sale_event !! k = None).
  { exists (u "access_token"). split; [|apply lookup_delete_eq].
    rewrite !elem_of_cons. tauto. }
  split; [exact Hmissing|].
  apply (verify_names_first_missing (delete (u "access_token") sale_event) Hmissing).
Defined.


Lemma no_match_returns_empty_witness :
  _verify_event_payload no_match_event = Ok tt ∧
  find_matches ascii_lower sample_feed no_match_event = Ok [] ∧
  ∃ calls,
    lambda_handler ascii_lower sample_feed no_match_event [] = ([] ++ calls, Ok ∅) ∧
    Forall (λ c, is_publish c = false ∧ is_environ c = false) calls.
Proof.
  split; [by vm_compute|]. split; [by vm_compute|].
  apply (no_match_returns_empty ascii_lower sample_feed no_match_event []);
    by vm_compute.
Defined.

Lemma missing_topic_fails_iff_matches_witness :
  _verify_event_payload sale_event = Ok tt ∧
  find_matches ascii_lower sample_feed sale_event = Ok [u "Big SALE today!"] ∧
  environ sample_feed !! u "sns_topic_arn" = None ∧
  ∃ calls,
    (lambda_handler ascii_lower sample_feed sale_event []).1 = [] ++ calls ∧
    ((lambda_handler ascii_lower sample_feed sale_event []).2
       = Err (KeyError (u "sns_topic_arn")) ↔ [u "Big SALE today!"] ≠ []) ∧
    ((lambda_handler ascii_lower sample_feed sale_event []).2 = Ok ∅
       ↔ [u "Big SALE today!"] = []) ∧
    (Exists (λ c, is_environ c = true) calls ↔ [u "Big SALE today!"] ≠ []) ∧
    Forall (λ c, is_publish c = false) calls.
Proof.
  split; [by vm_compute|]. split; [by vm_compute|]. split; [done|].
  apply (missing_topic_fails_iff_matches ascii_lower sample_feed sale_event []
           [u "Big SALE today!"]); [by vm_compute | by vm_compute | done].
Defined.

Lemma sale_event_typed : typed_request sale_event.
Proof.
  split; intros items Hitems.
  - assert (sale_event !! u "search_terms" = Some (terms_value [u "sale"])) as Hst
      by reflexivity.
    rewrite Hst in Hitems. injection Hitems as <-. by exists [u "sale"].
  - assert (sale_event !! u "special_unicode" = Some (codes_value [])) as Hsu
      by reflexivity.
    rewrite Hsu in Hitems. injection Hitems as <-. by exists [].
Qed.

Lemma handler_propagates_witness :
  typed_request sale_event ∧
  handler_outcome ascii_lower (sample_world sale_posts sample_env) sale_event
    (lambda_handler ascii_lower (sample_world sale_posts sample_env) sale_event []).2.
Proof.
  split; [apply sale_event_typed|].
  apply (handler_propagates ascii_lower (sample_world sale_posts sample_env)
           sale_event []).
  apply sale_event_typed.
Defined.

Lemma empty_text_fails_to_match_witness :
  ascii_lower [] = [] ∧
  (∀ s, ascii_lower s = [] → s = []) ∧
  ((∃ term, term ∈ [u "sale"] ∧ term ≠ []) ∨ @nil Z ≠ []) ∧
  tweet_matching ascii_lower (terms_value [u "sale"]) (codes_value []) [] = Ok false.
Proof.
  assert (Hreq : (∃ term, term ∈ [u "sale"] ∧ term ≠ []) ∨ @nil Z ≠ []).
  { left. exists (u "sale"). split; [apply list_elem_of_here | done]. }
  split; [reflexivity|]. split; [apply ascii_lower_not_nil|]. split; [exact Hreq|].
  apply (empty_text_fails_to_match ascii_lower eq_refl ascii_lower_not_nil
           [u "sale"] [] Hreq).
Defined.

Lemma matching_antitone_witness :
  [u "sale"] ⊆ [u "sale"; u "today"] ∧
  @nil Z ⊆ [33] ∧
  ∃ texts texts',
    user_tweets_loop ascii_lower (terms_value [u "sale"]) (codes_value [])
      sale_posts [] = Ok texts ∧
    user_tweets_loop ascii_lower (terms_value [u "sale"; u "today"]) (codes_value [33])
      sale_posts [] = Ok texts' ∧
    texts' `sublist_of` texts ∧
    texts `sublist_of` text <$> sale_posts.
Proof.
  assert (Hterms : [u "sale"] ⊆ [u "sale"; u "today"]).
  { intros term Hin. apply elem_of_cons. left. by apply list_elem_of_singleton in Hin. }
  assert (Hcodes : @nil Z ⊆ [33]).
  { intros code Hin. by apply elem_of_nil in Hin. }
  split; [exact Hterms|]. split; [exact Hcodes|].
  apply (matching_antitone ascii_lower sale_posts _ _ _ _ Hterms Hcodes).
Defined.

Lemma empty_term_is_no_constraint_witness :
  ascii_lower [] = [] ∧
  user_tweets_loop ascii_lower (terms_value [[]]) (codes_value []) sale_posts []
    = Ok (text <$> sale_posts).
Proof.
  split; [reflexivity|].
  apply (empty_term_is_no_constraint ascii_lower eq_refl).
Defined.

(** ** The scenarios of the specification, by evaluation *)

(** Scenario 1: one of the two posts contains "sale"; it is published once,
    with the subject of the payload, and the acknowledgment is returned. *)
Example scenario_sale_is_published :
  lambda_handler ascii_lower (sample_world sale_posts sample_env) sale_event [] =
  ([TweepyAPI (VStr (u "ck")) (VStr (u "cs")) (VStr (u "at")) (VStr (u "ats"));
    UserTimeline 1 (VStr (u "shop"));
    Environ (u "sns_topic_arn");
    Boto3Client (u "sns");
    Publish 2 (u "arn:aws:sns:us-east-1:1:restock") (u "Big SALE today!")
      (VStr (u "Restock alert"))],
   Ok sample_ack).
Proof. by vm_compute. Qed.

(** Scenario 2: no post satisfies the filters. *)
Example scenario_no_match :
  lambda_handler ascii_lower (sample_world sale_posts sample_env) no_match_event [] =
  ([TweepyAPI (VStr (u "ck")) (VStr (u "cs")) (VStr (u "at")) (VStr (u "ats"));
    UserTimeline 1 (VStr (u "shop"))],
   Ok ∅).
Proof. by vm_compute. Qed.

(** Scenario 3: [access_token] is missing. *)
Example scenario_missing_access_token :
  lambda_handler ascii_lower (sample_world sale_posts sample_env)
    (delete (u "access_token") sale_event) [] =
  ([], Err (ValueError (missing_input_message (u "access_token")))).
Proof. by vm_compute. Qed.

Example hello_matches_HELLO :
  tweet_matching ascii_lower (terms_value [u "hello"]) (codes_value []) (u "say HELLO")
    = Ok true.
Proof. by vm_compute. Qed.

(** "café": the code point 233 of its last character is found, 234 is not. *)
Example cafe_code_points :
  tweet_matching ascii_lower (terms_value []) (codes_value [233]) [99; 97; 102; 233]
    = Ok true ∧
  tweet_matching ascii_lower (terms_value []) (codes_value [234]) [99; 97; 102; 233]
    = Ok false.
Proof. by vm_compute. Qed.

(** Items of other types, which validation lets through: a search term that
    is not a string raises when it is reached, unless an earlier term has
    already ended the loop; the second loop runs even then. The error leaves
    the handler as it is. *)
Example untyped_items :
  tweet_matching ascii_lower (VList [VInt 1]) (VList []) (u "sale") = Err AttributeError ∧
  tweet_matching ascii_lower (VList [VStr (u "zzz"); VInt 1]) (VList []) (u "sale")
    = Ok false ∧
  tweet_matching ascii_lower (VList [VStr (u "zzz")]) (VList [VList []]) (u "sale")
    = Err TypeError ∧
  (lambda_handler ascii_lower sample_feed
     (sample_event (VList [VInt 1]) (VList [])) []).2 = Err AttributeError.
Proof. by vm_compute. Qed.

(** * Further properties of the code *)

(** ** Validation *)

Lemma missing_input_message_inj (k k' : str) :
  missing_input_message k = missing_input_message k' → k = k'.
Proof. unfold missing_input_message. apply app_inv_head. Qed.

Lemma check_required_error (event : gmap str pyval) (inputs : list str) (e : exn) :
  check_required event inputs = Err e →
  ∃ k, k ∈ inputs ∧ event !! k = None ∧ e = ValueError (missing_input_message k).
Proof.
  induction inputs as [|k inputs IH]; [done|].
  cbn [check_required]. case_bool_decide as Hk.
  - intros [= <-]. exists k. split; [apply list_elem_of_here | done].
  - intros (k' & Hin & Hnone & ->)%IH. exists k'. split; [by right | done].
Qed.

Lemma check_required_ext (e1 e2 : gmap str pyval) (inputs : list str) :
  (∀ k, k ∈ inputs → (is_Some (e1 !! k) ↔ is_Some (e2 !! k))) →
  check_required e1 inputs = check_required e2 inputs.
Proof.
  induction inputs as [|k inputs IH]; intros Hagree; [done|].
  cbn [check_required]. rewrite IH by (intros k' Hin; apply Hagree; by right).
  pose proof (Hagree k (list_elem_of_here _ _)) as Hk.
  rewrite <- !not_eq_None_Some in Hk.
  repeat case_bool_decide; tauto.
Qed.

Lemma verify_all_present (event : gmap str pyval) :
  (∀ k, k ∈ required_inputs → is_Some (event !! k)) →
  _verify_event_payload event =
  if is_list (event_field event (u "search_terms")) &&
     is_list (event_field event (u "special_unicode"))
  then Ok tt else Err AssertionError.
Proof.
  intros Hpresent. unfold _verify_event_payload.
  rewrite check_required_present by done.
  destruct (Hpresent (u "search_terms")) as [search_terms Hst].
  { unfold required_inputs. rewrite !elem_of_cons. tauto. }
  destruct (Hpresent (u "special_unicode")) as [special_unicode Hsu].
  { unfold required_inputs. rewrite !elem_of_cons. tauto. }
  unfold getitem, event_field. rewrite Hst, Hsu. cbn.
  by destruct (is_list search_terms), (is_list special_unicode).
Qed.

(** X1. Validation succeeds exactly when the eight required inputs are
    present and both [search_terms] and [special_unicode] are lists (and
    not merely sequences: a [str] is refused). *)
Theorem verify_ok_iff (event : gmap str pyval) :
  _verify_event_payload event = Ok tt ↔
  (∀ k, k ∈ required_inputs → is_Some (event !! k)) ∧
  is_list (event_field event (u "search_terms")) = true ∧
  is_list (event_field event (u "special_unicode")) = true.
Proof.
  split.
  - intros Hvalid. pose proof (verify_ok_present event Hvalid) as Hpresent.
    rewrite (verify_all_present event Hpresent) in Hvalid.
    split; [done|]. apply andb_true_iff.
    by destruct (is_list _ && is_list _).
  - intros (Hpresent & Hst & Hsu).
    by rewrite (verify_all_present event Hpresent), Hst, Hsu.
Qed.

(** X2. Validation has three outcomes only: success, the [ValueError] of a
    required input that is absent, or, with every input present, the
    [AssertionError] of line 42. Reading [event["search_terms"]] there never
    raises a [KeyError]. *)
Theorem verify_outcomes (event : gmap str pyval) :
  _verify_event_payload event = Ok tt ∨
  (∃ k, k ∈ required_inputs ∧ event !! k = None ∧
        _verify_event_payload event = Err (ValueError (missing_input_message k))) ∨
  ((∀ k, k ∈ required_inputs → is_Some (event !! k)) ∧
   _verify_event_payload event = Err AssertionError).
Proof.
  destruct (check_required event required_inputs) as [[]|e] eqn:Hrun.
  - pose proof (check_required_ok event _ Hrun) as Hpresent.
    rewrite (verify_all_present event Hpresent).
    destruct (is_list _ && is_list _); [by left | by right; right].
  - apply check_required_error in Hrun as Herr. destruct Herr as (k & Hin & Hnone & ->).
    right. left. exists k. split_and!; try done.
    unfold _verify_event_payload. by rewrite Hrun.
Qed.

(** X3. The input named in the error is really missing: when validation
    raises the [ValueError] for [k], [k] is a required input absent from the
    payload and every required input listed before it is present. *)
Theorem reported_input_is_first_missing (event : gmap str pyval) (k : str) :
  _verify_event_payload event = Err (ValueError (missing_input_message k)) →
  ∃ before after,
    required_inputs = before ++ k :: after ∧
    (∀ k', k' ∈ before → is_Some (event !! k')) ∧
    event !! k = None.
Proof.
  intros Hverify.
  destruct (check_required event required_inputs) as [[]|e] eqn:Hrun.
  - pose proof (check_required_ok event _ Hrun) as Hpresent.
    rewrite (verify_all_present event Hpresent) in Hverify.
    by destruct (is_list _ && is_list _).
  - apply check_required_error in Hrun as Herr. destruct Herr as (k' & Hin & Hnone & ->).
    destruct (check_required_first_missing event required_inputs)
      as (before & first & after & Hsplit & Hbefore & Hfirst & Hrun'); [by eauto|].
    unfold _verify_event_payload in Hverify. rewrite Hrun' in Hverify.
    cbn [mbind result_bind] in Hverify.
    assert (first = k) as -> by (apply missing_input_message_inj; congruence).
    by exists before, after.
Qed.

(** X4. Validation looks at nothing but the presence of the required inputs
    and at whether the two list fields are lists: other keys, the values of
    the other inputs and the items of the lists play no part. *)
Theorem verify_depends_on_shape_only (e1 e2 : gmap str pyval) :
  (∀ k, k ∈ required_inputs → (is_Some (e1 !! k) ↔ is_Some (e2 !! k))) →
  is_list (event_field e1 (u "search_terms")) = is_list (event_field e2 (u "search_terms")) →
  is_list (event_field e1 (u "special_unicode"))
    = is_list (event_field e2 (u "special_unicode")) →
  _verify_event_payload e1 = _verify_event_payload e2.
Proof.
  intros Hagree Hst Hsu.
  pose proof (check_required_ext e1 e2 required_inputs Hagree) as Hsame.
  destruct (check_required e1 required_inputs) as [[]|e] eqn:Hrun1.
  - symmetry in Hsame.
    rewrite (verify_all_present e1 (check_required_ok e1 _ Hrun1)).
    rewrite (verify_all_present e2 (check_required_ok e2 _ Hsame)).
    by rewrite Hst, Hsu.
  - unfold _verify_event_payload. by rewrite Hrun1, <- Hsame.
Qed.

(** ** The matching loops on arbitrary payload values *)

Section MatchingLoops.

Variable lower : str → str.

Lemma search_terms_loop_prefix (tweet_text : str) (terms : list str)
    (more : list pyval) (matching : bool) :
  search_terms_loop lower tweet_text ((VStr <$> terms) ++ more) matching =
  if forallb (λ term, str_in (lower term) (lower tweet_text)) terms
  then search_terms_loop lower tweet_text more matching
  else Ok false.
Proof.
  induction terms as [|term terms IH]; [done|].
  cbn. destruct (str_in (lower term) (lower tweet_text)); [apply IH | done].
Qed.

Lemma special_unicode_loop_prefix (chars : gset Z) (codes : list Z)
    (more : list pyval) (matching : bool) :
  special_unicode_loop chars ((VInt <$> codes) ++ more) matching =
  if forallb (λ code, bool_decide (code ∈ chars)) codes
  then special_unicode_loop chars more matching
  else Ok false.
Proof.
  induction codes as [|code codes IH]; [done|].
  cbn. destruct (bool_decide (code ∈ chars)); [apply IH | done].
Qed.

Lemma search_terms_loop_error (tweet_text : str) (search_terms : list pyval)
    (matching : bool) (e : exn) :
  search_terms_loop lower tweet_text search_terms matching = Err e → e = AttributeError.
Proof.
  induction search_terms as [|search_term search_terms IH]; [done|].
  cbn [search_terms_loop]. destruct search_term; cbn; try by intros [= <-].
  destruct (str_in _ _); [apply IH | done].
Qed.

Lemma special_unicode_loop_error (chars : gset Z) (special_unicode : list pyval)
    (matching : bool) (e : exn) :
  special_unicode_loop chars special_unicode matching = Err e → e = TypeError.
Proof.
  induction special_unicode as [|x special_unicode IH]; [done|].
  cbn [special_unicode_loop].
  destruct x; cbn; try (by intros [= <-]); try done;
    by (destruct (bool_decide _); [apply IH | done]).
Qed.

Lemma py_iter_error (v : pyval) (e : exn) : py_iter v = Err e → e = TypeError.
Proof. destruct v; cbn; by intros [= <-]. Qed.

Lemma tweet_matching_error (search_terms special_unicode : pyval) (tweet_text : str)
    (e : exn) :
  tweet_matching lower search_terms special_unicode tweet_text = Err e →
  e = AttributeError ∨ e = TypeError.
Proof.
  unfold tweet_matching.
  destruct (py_iter search_terms) as [terms|e1] eqn:Hterms; cbn [mbind result_bind].
  2: { intros [= <-]. right. by eapply py_iter_error. }
  destruct (search_terms_loop lower tweet_text terms true) as [matching|e1] eqn:Hloop1;
    cbn [mbind result_bind].
  2: { intros [= <-]. left. by eapply search_terms_loop_error. }
  destruct (py_iter special_unicode) as [chars|e1] eqn:Hchars; cbn [mbind result_bind].
  2: { intros [= <-]. right. by eapply py_iter_error. }
  intros Hloop2. right. by eapply special_unicode_loop_error.
Qed.

Lemma user_tweets_loop_acc (search_terms special_unicode : pyval)
    (posts : list tweet) (matching_tweets : list str) :
  user_tweets_loop lower search_terms special_unicode posts matching_tweets =
  kept ← user_tweets_loop lower search_terms special_unicode posts [];
  Ok (matching_tweets ++ kept).
Proof.
  revert matching_tweets. induction posts as [|post posts IH]; intros acc.
  - cbn. by rewrite app_nil_r.
  - cbn [user_tweets_loop].
    destruct (tweet_matching lower search_terms special_unicode (text post))
      as [[]|e]; cbn [mbind result_bind]; [|apply IH|done].
    rewrite IH, (IH ([] ++ [text post])).
    destruct (user_tweets_loop lower search_terms special_unicode posts []);
      cbn [mbind result_bind]; [|done].
    by rewrite <- app_assoc.
Qed.

Lemma user_tweets_loop_app (search_terms special_unicode : pyval)
    (posts1 posts2 : list tweet) (matching_tweets : list str) :
  user_tweets_loop lower search_terms special_unicode (posts1 ++ posts2) matching_tweets =
  kept ← user_tweets_loop lower search_terms special_unicode posts1 matching_tweets;
  user_tweets_loop lower search_terms special_unicode posts2 kept.
Proof.
  revert matching_tweets. induction posts1 as [|post posts1 IH]; intros acc; [done|].
  cbn [app user_tweets_loop].
  destruct (tweet_matching lower search_terms special_unicode (text post)) as [b|e];
    cbn [mbind result_bind]; [apply IH | done].
Qed.

(** X5. Whatever the criteria are, a result of the loop over the tweets is
    the initial list followed by a subsequence of the tweets' texts: the
    loop only appends, keeps the feed order, never repeats or alters a
    text. *)
Theorem user_tweets_loop_sublist (search_terms special_unicode : pyval)
    (posts : list tweet) (matching_tweets result : list str) :
  user_tweets_loop lower search_terms special_unicode posts matching_tweets = Ok result →
  ∃ kept, result = matching_tweets ++ kept ∧ kept `sublist_of` text <$> posts.
Proof.
  revert matching_tweets. induction posts as [|post posts IH]; intros acc.
  - cbn. intros [= <-]. exists []. by rewrite app_nil_r.
  - cbn [user_tweets_loop].
    destruct (tweet_matching lower search_terms special_unicode (text post))
      as [[]|e]; cbn [mbind result_bind]; [| |done].
    + intros (kept & -> & Hsub)%IH. exists (text post :: kept).
      split; [by rewrite <- app_assoc | by constructor].
    + intros (kept & -> & Hsub)%IH. exists kept. split; [done | by constructor].
Qed.

(** X6. Matching distributes over the feed: when two pages of tweets are
    matched separately without error, matching the two pages in a row gives
    the two results in a row. *)
Theorem matches_of_concatenated_feed (search_terms special_unicode : pyval)
    (posts1 posts2 : list tweet) (kept1 kept2 : list str) :
  user_tweets_loop lower search_terms special_unicode posts1 [] = Ok kept1 →
  user_tweets_loop lower search_terms special_unicode posts2 [] = Ok kept2 →
  user_tweets_loop lower search_terms special_unicode (posts1 ++ posts2) []
    = Ok (kept1 ++ kept2).
Proof.
  intros H1 H2. rewrite user_tweets_loop_app, H1. cbn [mbind result_bind].
  by rewrite user_tweets_loop_acc, H2.
Qed.

(** X7. The matching loop raises nothing but [AttributeError] (a search
    term without [lower]) and [TypeError] (a value that cannot be iterated
    or hashed). *)
Theorem user_tweets_loop_errors (search_terms special_unicode : pyval)
    (posts : list tweet) (matching_tweets : list str) (e : exn) :
  user_tweets_loop lower search_terms special_unicode posts matching_tweets = Err e →
  e = AttributeError ∨ e = TypeError.
Proof.
  revert matching_tweets. induction posts as [|post posts IH]; intros acc; [done|].
  cbn [user_tweets_loop].
  destruct (tweet_matching lower search_terms special_unicode (text post))
    as [b|e'] eqn:Hpost; cbn [mbind result_bind]; [apply IH|].
  intros [= <-]. by eapply tweet_matching_error.
Qed.

(** X8. A search term that is not a string raises [AttributeError] when
    every term before it occurs in the text, whatever [special_unicode] is;
    when a term before it does not occur, the [break] of line 83 leaves the
    loop first and the tweet is just not a match. *)
Theorem non_string_search_term (terms : list str) (v : pyval) (more : list pyval)
    (tweet_text : str) :
  (∀ s, v ≠ VStr s) →
  ((∀ term, term ∈ terms → occurs_in (lower term) (lower tweet_text)) →
   ∀ special_unicode,
     tweet_matching lower (VList ((VStr <$> terms) ++ v :: more)) special_unicode
       tweet_text = Err AttributeError) ∧
  (∀ term codes,
     term ∈ terms → ¬ occurs_in (lower term) (lower tweet_text) →
     tweet_matching lower (VList ((VStr <$> terms) ++ v :: more)) (codes_value codes)
       tweet_text = Ok false).
Proof.
  intros Hv. split.
  - intros Hall special_unicode. unfold tweet_matching. cbn [py_iter mbind result_bind].
    rewrite search_terms_loop_prefix.
    replace (forallb _ terms) with true.
    + cbn [search_terms_loop]. destruct v; try done. by destruct (Hv s).
    + symmetry. apply forallb_forall. intros term Hin%list_elem_of_In.
      by apply str_in_spec, Hall.
  - intros term codes Hin Hnot. unfold tweet_matching, codes_value.
    cbn [py_iter mbind result_bind]. rewrite search_terms_loop_prefix.
    replace (forallb _ terms) with false.
    + cbn [mbind result_bind]. rewrite special_unicode_loop_typed.
      by rewrite andb_false_r.
    + symmetry. apply not_true_is_false. rewrite forallb_forall. intros Hall.
      apply Hnot, str_in_spec, Hall. by apply list_elem_of_In.
Qed.

(** X9. The loop over [special_unicode] runs even when a search term has
    already failed: an item that cannot be hashed (a list or a dict) raises
    [TypeError] as soon as the code points before it are in the text,
    whether the string terms occur or not. *)
Theorem unhashable_code_point (terms : list str) (codes : list Z) (v : pyval)
    (more : list pyval) (tweet_text : str) :
  is_list v = true ∨ (∃ d, v = VDict d) →
  (∀ code, code ∈ codes → code ∈ (ord <$> tweet_text)) →
  tweet_matching lower (terms_value terms) (VList ((VInt <$> codes) ++ v :: more))
    tweet_text = Err TypeError.
Proof.
  intros Hv Hall. unfold tweet_matching, terms_value. cbn [py_iter mbind result_bind].
  rewrite search_terms_loop_typed. cbn [mbind result_bind].
  rewrite special_unicode_loop_prefix.
  replace (forallb _ codes) with true.
  - cbn [special_unicode_loop]. destruct Hv as [Hv | [d ->]]; [|done].
    by destruct v.
  - symmetry. apply forallb_forall. intros code Hin%list_elem_of_In.
    by apply bool_decide_eq_true, elem_of_list_to_set, Hall.
Qed.

(** X10. Only the set of lower-cased terms and the set of code points
    matter: two lists of string terms with the same lower-cased members and
    two lists of code points with the same members select the same texts,
    so order, repetition and the case of the terms are irrelevant. *)
Theorem criteria_compared_as_sets (posts : list tweet)
    (terms terms' : list str) (codes codes' : list Z) :
  (∀ s, s ∈ (lower <$> terms) ↔ s ∈ (lower <$> terms')) →
  (∀ code, code ∈ codes ↔ code ∈ codes') →
  user_tweets_loop lower (terms_value terms) (codes_value codes) posts [] =
  user_tweets_loop lower (terms_value terms') (codes_value codes') posts [].
Proof.
  intros Hterms Hcodes. rewrite !user_tweets_loop_typed. do 3 f_equal.
  apply list_filter_iff. intros post.
  assert (Hhalf : ∀ ts ts' cs cs',
    (∀ s, s ∈ (lower <$> ts) → s ∈ (lower <$> ts')) →
    (∀ code, code ∈ cs → code ∈ cs') →
    post_matches lower ts' cs' post → post_matches lower ts cs post).
  { intros ts ts' cs cs' Hts Hcs [H1 H2]. split; [|by auto].
    intros term Hin.
    assert (Hin' : lower term ∈ (lower <$> ts')) by (by apply Hts, list_elem_of_fmap_2).
    apply list_elem_of_fmap in Hin' as (term' & Heq & Hin').
    rewrite Heq. by apply H1. }
  split; apply Hhalf; intros x; try apply Hterms; apply Hcodes.
Qed.

End MatchingLoops.

(** ** The handler and its calls *)

Ltac run_valid_handler valid :=
  unfold lambda_handler;
  rewrite ?(verify_ok_getitem _ _ valid)
    by (unfold required_inputs; rewrite !elem_of_cons; tauto);
  rewrite valid;
  unfold _get_authorized_tweepy_client, os_environ, _get_sns_client,
    _get_aws_client, _send_message, calling, lift, mbind, M_bind.

Lemma handler_loop_fails (lower : str → str) (w : world) (event : gmap str pyval)
    (log : list call) (c : client) (posts : list tweet) (e : exn) :
  _verify_event_payload event = Ok tt →
  authenticate w event = Ok c →
  user_timeline w c (event_field event (u "screen_name")) = Ok posts →
  user_tweets_loop lower (event_field event (u "search_terms"))
    (event_field event (u "special_unicode")) posts [] = Err e →
  lambda_handler lower w event log =
  (log ++ [TweepyAPI (event_field event (u "consumer_key"))
             (event_field event (u "consumer_secret"))
             (event_field event (u "access_token"))
             (event_field event (u "access_token_secret"));
           UserTimeline c (event_field event (u "screen_name"))],
   Err e).
Proof.
  unfold authenticate. intros Hvalid Hauth Hfeed Hloop. run_valid_handler Hvalid.
  rewrite Hauth, get_matching_tweets_run, Hfeed. cbn [mbind result_bind].
  rewrite Hloop. by rewrite <- app_assoc.
Qed.

Lemma verify_ext_lookup (e1 e2 : gmap str pyval) :
  (∀ k, k ∈ required_inputs → e1 !! k = e2 !! k) →
  _verify_event_payload e1 = _verify_event_payload e2.
Proof.
  intros Hagree. unfold _verify_event_payload, getitem.
  rewrite (check_required_ext e1 e2) by (intros k Hin; by rewrite Hagree).
  by rewrite !Hagree by (unfold required_inputs; rewrite !elem_of_cons; tauto).
Qed.

(** X11. The handler reads the eight required inputs and nothing else: two
    payloads that agree on them give the same calls and the same result. *)
Theorem handler_reads_required_inputs_only (lower : str → str) (w : world)
    (e1 e2 : gmap str pyval) (log : list call) :
  (∀ k, k ∈ required_inputs → e1 !! k = e2 !! k) →
  lambda_handler lower w e1 log = lambda_handler lower w e2 log.
Proof.
  intros Hagree. unfold lambda_handler, getitem.
  rewrite (verify_ext_lookup e1 e2 Hagree).
  by rewrite !Hagree by (unfold required_inputs; rewrite !elem_of_cons; tauto).
Qed.

(** X12. Every invocation only adds calls to the log, and the calls it adds
    are an initial part of: build the feed client, read the timeline, read
    the topic from the environment, get the SNS client, publish. So there is
    at most one call of each kind, a publish call comes last and never
    without the three lookups before it. *)
Theorem handler_call_sequence (lower : str → str) (w : world)
    (event : gmap str pyval) (log : list call) :
  ∃ calls,
    (lambda_handler lower w event log).1 = log ++ calls ∧
    kind_of <$> calls `prefix_of` handler_call_order.
Proof.
  destruct (_verify_event_payload event) as [[]|e] eqn:Hvalid.
  2: { rewrite (lambda_handler_invalid _ _ _ _ _ Hvalid). exists [].
       split; [by rewrite app_nil_r | by eexists]. }
  destruct (find_matches lower w event) as [matches|e] eqn:Hmatches.
  - destruct (handler_matches lower w event log Hvalid matches Hmatches)
      as (c & _ & Hrun).
    cbn zeta in Hrun. rewrite Hrun. clear Hrun.
    destruct matches as [|first rest]; [eexists; split; [done | by eexists]|].
    destruct (environ w !! u "sns_topic_arn") as [topic_arn|].
    2: { rewrite <- app_assoc. eexists. split; [done | by eexists]. }
    destruct (boto3_client w (u "sns")) as [sns_client|e];
      rewrite <- app_assoc; eexists; (split; [done | by eexists]).
  - pose proof Hmatches as [(e' & Hauth & [= <-]) | [(c & e' & Hauth & Hfeed & [= <-])
      | (c & posts & Hauth & Hfeed & Hloop)]]%find_matches_inv.
    + rewrite (handler_authentication_fails _ _ _ _ Hvalid _ Hauth).
      eexists. split; [done | by eexists].
    + rewrite (handler_fetch_fails _ _ _ _ Hvalid _ _ Hauth Hfeed).
      eexists. split; [done | by eexists].
    + rewrite (handler_loop_fails _ _ _ _ _ _ _ Hvalid Hauth Hfeed Hloop).
      eexists. split; [done | by eexists].
Qed.

(** X13. The publish path: for a valid payload with at least one match, the
    topic in the environment and an SNS client, the handler makes the five
    calls in order, publishes once to that topic the matches joined by blank
    lines under the payload's subject, and returns what [publish] returns,
    acknowledgment or error. *)
Theorem handler_publishes_joined_matches (lower : str → str) (w : world)
    (event : gmap str pyval) (log : list call)
    (first : str) (rest : list str) (topic_arn : str) (sns_client : client) :
  _verify_event_payload event = Ok tt →
  find_matches lower w event = Ok (first :: rest) →
  environ w !! u "sns_topic_arn" = Some topic_arn →
  boto3_client w (u "sns") = Ok sns_client →
  ∃ feed_client,
    authenticate w event = Ok feed_client ∧
    lambda_handler lower w event log =
    (log ++ [TweepyAPI (event_field event (u "consumer_key"))
               (event_field event (u "consumer_secret"))
               (event_field event (u "access_token"))
               (event_field event (u "access_token_secret"));
             UserTimeline feed_client (event_field event (u "screen_name"));
             Environ (u "sns_topic_arn");
             Boto3Client (u "sns");
             Publish sns_client topic_arn (str_join blank_line (first :: rest))
               (event_field event (u "subject"))],
     publish w sns_client topic_arn (str_join blank_line (first :: rest))
       (event_field event (u "subject"))).
Proof.
  intros Hvalid Hmatches Htopic Hsns.
  destruct (handler_matches lower w event log Hvalid _ Hmatches) as (c & Hauth & Hrun).
  exists c. split; [done|]. cbn zeta in Hrun.
  rewrite Hrun, Htopic, Hsns. by rewrite <- app_assoc.
Qed.

(** X14. When building the feed client, reading the timeline or the
    matching loop raises, the handler raises that same error, and it has
    neither read the topic from the environment nor published. *)
Theorem failure_before_publish_path (lower : str → str) (w : world)
    (event : gmap str pyval) (log : list call) (e : exn) :
  _verify_event_payload event = Ok tt →
  find_matches lower w event = Err e →
  ∃ calls,
    lambda_handler lower w event log = (log ++ calls, Err e) ∧
    Forall (λ c, is_publish c = false ∧ is_environ c = false) calls.
Proof. intros Hvalid Hfail. by apply handler_matching_fails. Qed.

(** X15. Nothing is lost in the message: every matched text occurs in the
    joined message. *)
Theorem message_contains_every_match (matches : list str) (m : str) :
  m ∈ matches → occurs_in m (str_join blank_line matches).
Proof.
  intros (before & after & ->)%list_elem_of_split.
  destruct before as [|first before]; cbn [app str_join].
  - by exists [], (join_rest blank_line after).
  - rewrite join_rest_app. cbn [join_rest].
    exists (first ++ join_rest blank_line before ++ blank_line),
      (join_rest blank_line after).
    by rewrite <- !app_assoc.
Qed.

Ltac no_publish_in H :=
  exfalso; cbn [app] in H;
  repeat (apply Exists_cons in H as [H|H]; [done|]);
  by apply Exists_nil in H.

(** X16. Starting from an empty log, the handler publishes exactly when the
    payload is valid, the fetched tweets give at least one match, the topic
    is in the environment and the SNS client is obtained. *)
Theorem handler_publishes_iff (lower : str → str) (w : world) (event : gmap str pyval) :
  Exists (λ c, is_publish c = true) (lambda_handler lower w event []).1 ↔
  _verify_event_payload event = Ok tt ∧
  (∃ first rest, find_matches lower w event = Ok (first :: rest)) ∧
  is_Some (environ w !! u "sns_topic_arn") ∧
  (∃ sns_client, boto3_client w (u "sns") = Ok sns_client).
Proof.
  split.
  - destruct (_verify_event_payload event) as [[]|e] eqn:Hvalid.
    2: { rewrite (lambda_handler_invalid _ _ _ _ _ Hvalid). intros H. no_publish_in H. }
    destruct (find_matches lower w event) as [matches|e] eqn:Hmatches.
    + destruct (handler_matches lower w event [] Hvalid matches Hmatches)
        as (c & _ & Hrun).
      cbn zeta in Hrun. rewrite Hrun. clear Hrun.
      destruct matches as [|first rest]; [intros H; no_publish_in H|].
      destruct (environ w !! u "sns_topic_arn") as [topic_arn|];
        [|intros H; no_publish_in H].
      destruct (boto3_client w (u "sns")) as [sns_client|e];
        [|intros H; no_publish_in H].
      intros _. split_and!; by eauto.
    + pose proof Hmatches as [(e' & Hauth & [= <-]) | [(c & e' & Hauth & Hfeed & [= <-])
        | (c & posts & Hauth & Hfeed & Hloop)]]%find_matches_inv.
      * rewrite (handler_authentication_fails _ _ _ _ Hvalid _ Hauth).
        intros H. no_publish_in H.
      * rewrite (handler_fetch_fails _ _ _ _ Hvalid _ _ Hauth Hfeed).
        intros H. no_publish_in H.
      * rewrite (handler_loop_fails _ _ _ _ _ _ _ Hvalid Hauth Hfeed Hloop).
        intros H. no_publish_in H.
  - intros (Hvalid & (first & rest & Hmatches) & [topic_arn Htopic] & [sns_client Hsns]).
    destruct (handler_matches lower w event [] Hvalid _ Hmatches) as (c & _ & Hrun).
    cbn zeta in Hrun. rewrite Hrun, Htopic, Hsns. cbn [fst app].
    do 4 apply Exists_cons_tl. by apply Exists_cons_hd.
Qed.

(** ** The further properties at concrete inputs *)

Lemma odd_event_present (k : str) : k ∈ required_inputs → is_Some (odd_event !! k).
Proof.
  unfold required_inputs. rewrite !elem_of_cons, elem_of_nil.
  intros H. destruct_or!; subst; try done; by eexists.
Qed.

Lemma reported_input_is_first_missing_witness :
  _verify_event_payload (delete (u "access_token") sale_event)
    = Err (ValueError (missing_input_message (u "access_token"))) ∧
  ∃ before after,
    required_inputs = before ++ u "access_token" :: after ∧
    (∀ k', k' ∈ before → is_Some (delete (u "access_token") sale_event !! k')) ∧
    delete (u "access_token") sale_event !! u "access_token" = None.
Proof.
  split; [by vm_compute|].
  apply (reported_input_is_first_missing (delete (u "access_token") sale_event)
           (u "access_token")).
  by vm_compute.
Defined.

Lemma verify_depends_on_shape_only_witness :
  (∀ k, k ∈ required_inputs → (is_Some (sale_event !! k) ↔ is_Some (odd_event !! k))) ∧
  is_list (event_field sale_event (u "search_terms"))
    = is_list (event_field odd_event (u "search_terms")) ∧
  is_list (event_field sale_event (u "special_unicode"))
    = is_list (event_field odd_event (u "special_unicode")) ∧
  _verify_event_payload sale_event = _verify_event_payload odd_event.
Proof.
  assert (Hagree : ∀ k, k ∈ required_inputs →
    (is_Some (sale_event !! k) ↔ is_Some (odd_event !! k))).
  { intros k Hin. split; intros _;
      [by apply odd_event_present | by apply sample_event_present]. }
  split; [exact Hagree|]. split; [reflexivity|]. split; [reflexivity|].
  apply (verify_depends_on_shape_only sale_event odd_event Hagree);
    reflexivity.
Defined.

Lemma user_tweets_loop_sublist_witness :
  user_tweets_loop ascii_lower (terms_value [u "sale"]) (codes_value []) sale_posts
    [u "kept before"] = Ok [u "kept before"; u "Big SALE today!"] ∧
  ∃ kept,
    [u "kept before"; u "Big SALE today!"] = [u "kept before"] ++ kept ∧
    kept `sublist_of` text <$> sale_posts.
Proof.
  split; [by vm_compute|].
  apply (user_tweets_loop_sublist ascii_lower (terms_value [u "sale"]) (codes_value [])
           sale_posts [u "kept before"]).
  by vm_compute.
Defined.

Lemma matches_of_concatenated_feed_witness :
  user_tweets_loop ascii_lower (terms_value [u "deal"]) (codes_value [])
    [ {| text := u "Big SALE today!" |} ] [] = Ok [] ∧
  user_tweets_loop ascii_lower (terms_value [u "deal"]) (codes_value [])
    [ {| text := u "no deal here" |} ] [] = Ok [u "no deal here"] ∧
  user_tweets_loop ascii_lower (terms_value [u "deal"]) (codes_value [])
    ([ {| text := u "Big SALE today!" |} ] ++ [ {| text := u "no deal here" |} ]) []
    = Ok ([] ++ [u "no deal here"]).
Proof.
  split; [by vm_compute|]. split; [by vm_compute|].
  apply (matches_of_concatenated_feed ascii_lower (terms_value [u "deal"]) (codes_value []));
    by vm_compute.
Defined.

Lemma user_tweets_loop_errors_witness :
  user_tweets_loop ascii_lower (VList [VInt 1]) (VList []) sale_posts []
    = Err AttributeError ∧
  (AttributeError = AttributeError ∨ AttributeError = TypeError).
Proof.
  split; [by vm_compute|].
  apply (user_tweets_loop_errors ascii_lower (VList [VInt 1]) (VList []) sale_posts []).
  by vm_compute.
Defined.

Lemma non_string_search_term_witness :
  (∀ s, VInt 1 ≠ VStr s) ∧
  ((∀ term, term ∈ [u "sale"] →
      occurs_in (ascii_lower term) (ascii_lower (u "Big SALE today!"))) →
   ∀ special_unicode,
     tweet_matching ascii_lower (VList ((VStr <$> [u "sale"]) ++ VInt 1 :: []))
       special_unicode (u "Big SALE today!") = Err AttributeError) ∧
  (∀ term codes,
     term ∈ [u "sale"] →
     ¬ occurs_in (ascii_lower term) (ascii_lower (u "Big SALE today!")) →
     tweet_matching ascii_lower (VList ((VStr <$> [u "sale"]) ++ VInt 1 :: []))
       (codes_value codes) (u "Big SALE today!") = Ok false).
Proof.
  split; [done|].
  apply (non_string_search_term ascii_lower [u "sale"] (VInt 1) []
           (u "Big SALE today!")).
  done.
Defined.

Lemma unhashable_code_point_witness :
  (is_list (VList []) = true ∨ (∃ d, VList [] = VDict d)) ∧
  (∀ code, code ∈ [33] → code ∈ (ord <$> u "Big SALE today!")) ∧
  tweet_matching ascii_lower (terms_value [u "restock"])
    (VList ((VInt <$> [33]) ++ VList [] :: [])) (u "Big SALE today!") = Err TypeError.
Proof.
  assert (Hcodes : ∀ code, code ∈ [33] → code ∈ (ord <$> u "Big SALE today!")).
  { intros code ->%list_elem_of_singleton. apply list_elem_of_In. vm_compute. tauto. }
  split; [by left|]. split; [exact Hcodes|].
  apply (unhashable_code_point ascii_lower [u "restock"] [33] (VList []) []
           (u "Big SALE today!")); [by left | exact Hcodes].
Defined.

Lemma criteria_compared_as_sets_witness :
  (∀ s, s ∈ (ascii_lower <$> [u "SALE"; u "sale"]) ↔ s ∈ (ascii_lower <$> [u "Sale"])) ∧
  (∀ code, code ∈ [33; 33] ↔ code ∈ [33]) ∧
  user_tweets_loop ascii_lower (terms_value [u "SALE"; u "sale"]) (codes_value [33; 33])
    sale_posts [] =
  user_tweets_loop ascii_lower (terms_value [u "Sale"]) (codes_value [33]) sale_posts [].
Proof.
  assert (Hterms : ∀ s,
    s ∈ (ascii_lower <$> [u "SALE"; u "sale"]) ↔ s ∈ (ascii_lower <$> [u "Sale"])).
  { intros s. change (ascii_lower <$> [u "SALE"; u "sale"]) with [u "sale"; u "sale"].
    change (ascii_lower <$> [u "Sale"]) with [u "sale"].
    rewrite !elem_of_cons. tauto. }
  assert (Hcodes : ∀ code : Z, code ∈ [33; 33] ↔ code ∈ [33]).
  { intros code. rewrite !elem_of_cons. tauto. }
  split; [exact Hterms|]. split; [exact Hcodes|].
  apply (criteria_compared_as_sets ascii_lower sale_posts _ _ _ _ Hterms Hcodes).
Defined.

Lemma handler_reads_required_inputs_only_witness :
  (∀ k, k ∈ required_inputs → sale_event !! k = <[u "note" := VNone]> sale_event !! k) ∧
  lambda_handler ascii_lower sample_feed sale_event [] =
  lambda_handler ascii_lower sample_feed (<[u "note" := VNone]> sale_event) [].
Proof.
  assert (Hagree : ∀ k, k ∈ required_inputs →
    sale_event !! k = <[u "note" := VNone]> sale_event !! k).
  { unfold required_inputs. intros k. rewrite !elem_of_cons, elem_of_nil.
    intros H. destruct_or!; subst; try done; by rewrite lookup_insert_ne. }
  split; [exact Hagree|].
  apply (handler_reads_required_inputs_only ascii_lower sample_feed sale_event
           (<[u "note" := VNone]> sale_event) [] Hagree).
Defined.

Lemma handler_publishes_joined_matches_witness :
  _verify_event_payload sale_event = Ok tt ∧
  find_matches ascii_lower (sample_world sale_posts sample_env) sale_event
    = Ok [u "Big SALE today!"] ∧
  environ (sample_world sale_posts sample_env) !! u "sns_topic_arn"
    = Some (u "arn:aws:sns:us-east-1:1:restock") ∧
  boto3_client (sample_world sale_posts sample_env) (u "sns") = Ok 2 ∧
  ∃ feed_client,
    authenticate (sample_world sale_posts sample_env) sale_event = Ok feed_client ∧
    lambda_handler ascii_lower (sample_world sale_posts sample_env) sale_event [] =
    ([] ++ [TweepyAPI (event_field sale_event (u "consumer_key"))
              (event_field sale_event (u "consumer_secret"))
              (event_field sale_event (u "access_token"))
              (event_field sale_event (u "access_token_secret"));
            UserTimeline feed_client (event_field sale_event (u "screen_name"));
            Environ (u "sns_topic_arn");
            Boto3Client (u "sns");
            Publish 2 (u "arn:aws:sns:us-east-1:1:restock")
              (str_join blank_line [u "Big SALE today!"])
              (event_field sale_event (u "subject"))],
     publish (sample_world sale_posts sample_env) 2 (u "arn:aws:sns:us-east-1:1:restock")
       (str_join blank_line [u "Big SALE today!"])
       (event_field sale_event (u "subject"))).
Proof.
  split; [by vm_compute|]. split; [by vm_compute|]. split; [by vm_compute|].
  split; [done|].
  apply (handler_publishes_joined_matches ascii_lower
           (sample_world sale_posts sample_env) sale_event []
           (u "Big SALE today!") [] (u "arn:aws:sns:us-east-1:1:restock") 2);
    by vm_compute.
Defined.

Lemma failure_before_publish_path_witness :
  _verify_event_payload (sample_event (VList [VInt 1]) (VList [])) = Ok tt ∧
  find_matches ascii_lower sample_feed (sample_event (VList [VInt 1]) (VList []))
    = Err AttributeError ∧
  ∃ calls,
    lambda_handler ascii_lower sample_feed (sample_event (VList [VInt 1]) (VList [])) []
      = ([] ++ calls, Err AttributeError) ∧
    Forall (λ c, is_publish c = false ∧ is_environ c = false) calls.
Proof.
  split; [by vm_compute|]. split; [by vm_compute|].
  apply (failure_before_publish_path ascii_lower sample_feed
           (sample_event (VList [VInt 1]) (VList [])) [] AttributeError);
    by vm_compute.
Defined.

Lemma message_contains_every_match_witness :
  u "b" ∈ [u "a"; u "b"] ∧ occurs_in (u "b") (str_join blank_line [u "a"; u "b"]).
Proof.
  assert (Hin : u "b" ∈ [u "a"; u "b"]) by (right; left).
  split; [exact Hin|].
  apply (message_contains_every_match [u "a"; u "b"] (u "b") Hin).
Defined.

(** ** The outcomes of every invocation *)

(** C6, as stated, fails: validation does not look at the items of
    [search_terms], so the payload with [search_terms = [1]] is accepted,
    the matching loop raises [AttributeError] on the first tweet, and the
    handler's result is none of: the acknowledgment, the empty dict, an
    error of validation, of the feed client, of the timeline or of the
    publish path. *)
Lemma handler_outcome_misses_matching_error :
  (lambda_handler ascii_lower sample_feed untyped_event []).2 = Err AttributeError ∧
  ¬ handler_outcome ascii_lower sample_feed untyped_event
      (lambda_handler ascii_lower sample_feed untyped_event []).2.
Proof.
  assert (Hrun :
    (lambda_handler ascii_lower sample_feed untyped_event []).2 = Err AttributeError)
    by (by vm_compute).
  split; [exact Hrun|]. rewrite Hrun.
  assert (Hvalid : _verify_event_payload untyped_event = Ok tt) by (by vm_compute).
  assert (Hauth : authenticate sample_feed untyped_event = Ok 1) by (by vm_compute).
  assert (Hfeed : ∀ c screen_name,
    user_timeline sample_feed c screen_name = Ok sale_posts) by done.
  assert (Hmatches :
    find_matches ascii_lower sample_feed untyped_event = Err AttributeError)
    by (by vm_compute).
  intros Hout. inversion Hout; congruence.
Qed.

Lemma matching_loop_error_kind (lower : str → str)
    (search_terms special_unicode : pyval) (posts : list tweet)
    (matching_tweets : list str) (e : exn) :
  user_tweets_loop lower search_terms special_unicode posts matching_tweets = Err e →
  e = AttributeError ∨ e = TypeError.
Proof.
  revert matching_tweets. induction posts as [|post posts IH]; intros acc; [done|].
  cbn [user_tweets_loop].
  destruct (tweet_matching lower search_terms special_unicode (text post))
    as [b|e'] eqn:Hpost; cbn [mbind result_bind]; [apply IH|].
  intros [= <-]. by eapply tweet_matching_error.
Qed.

(** C6, amended. For every invocation the handler's result is the
    acknowledgment returned by [publish] when there is a match, the empty
    dict when there is none, or the very error raised by validation, by
    building the feed client, by reading the timeline, by the matching loop
    (an [AttributeError] or a [TypeError], for items that validation let
    through) or on the publish path (topic lookup, SNS client, [publish]).
    No error is replaced by a value. *)
Theorem handler_propagates_every_error (lower : str → str) (w : world)
    (event : gmap str pyval) (log : list call) :
  handler_outcome lower w event (lambda_handler lower w event log).2 ∨
  matching_error lower w event (lambda_handler lower w event log).2.
Proof.
  destruct (_verify_event_payload event) as [[]|e] eqn:Hvalid.
  2: { left. rewrite (lambda_handler_invalid _ _ _ _ _ Hvalid). by constructor. }
  destruct (find_matches lower w event) as [matches|e] eqn:Hmatches.
  - left.
    destruct (handler_matches lower w event log Hvalid matches Hmatches)
      as (c & _ & Hrun).
    cbn zeta in Hrun. rewrite Hrun. clear Hrun.
    destruct matches as [|first rest]; [by apply no_matches|].
    destruct (environ w !! u "sns_topic_arn") as [topic_arn|] eqn:Htopic.
    2: { by eapply configuration_error. }
    destruct (boto3_client w (u "sns")) as [sns_client|e] eqn:Hsns.
    2: { by eapply sns_client_error. }
    cbn [snd].
    destruct (publish w sns_client topic_arn _ _) as [ack|e] eqn:Hpublish.
    + by eapply acknowledged.
    + by eapply publish_error.
  - pose proof Hmatches as [(e' & Hauth & [= <-]) | [(c & e' & Hauth & Hfeed & [= <-])
      | (c & posts & Hauth & Hfeed & Hloop)]]%find_matches_inv.
    + left. rewrite (handler_authentication_fails _ _ _ _ Hvalid _ Hauth).
      by apply authentication_error.
    + left. rewrite (handler_fetch_fails _ _ _ _ Hvalid _ _ Hauth Hfeed).
      by eapply fetch_error.
    + right. rewrite (handler_loop_fails _ _ _ _ _ _ _ Hvalid Hauth Hfeed Hloop).
      exists c, posts, e. split_and!; try done.
      eapply matching_loop_error_kind. exact Hloop.
Qed.
